(** * Device-session admission control in the NextAuth route

    A shallow embedding of [apps/web/app/api/auth/[...nextauth]/route.ts]:
    the two OTP [authorize] functions, the [signIn] callback with its
    device-limit check, the [signIn] / [signOut] events and the two OTP
    dispatch helpers, over an explicit model of the Prisma tables they touch.

    Conventions of the embedding.
    - A table is the list of its rows in insertion order; the primary key of
      a row is its position.  Rows are never deleted by this code, so keys are
      unique and a freshly created row gets a fresh key.
    - An [async] function is a computation in the monad [M]: it threads the
      tables, may throw, and keeps the writes made before a throw (the code
      opens no transaction).
    - Every call that leaves the process ([prisma.*], [randomBytes], Twilio)
      may throw.  The environment says which ones do ([fails]); the calls
      made are recorded, in order, in [trace].
    - [new Date()] and [Date.now()] read the clock of the environment, in
      milliseconds; [Math.random()] reads its draw, a binary64 number. *)

From Stdlib Require Import ZArith QArith Qround Lia Lqa.
From stdpp Require Import base option list strings.

Local Open Scope string_scope.
Local Open Scope Z_scope.
Local Open Scope list_scope.

(** ** Tables *)

Abbreviation Id := nat.
Abbreviation Time := Z.

Inductive Role := CUSTOMER | OtherRole (name : string).

Module User.
Record t := mk {
    email : option string;
    emailVerified : option Time;
    phone : option string;
    phoneVerified : option Time;
    name : option string;
    image : option string;
    role : Role;
    tenantId : option Id
  }.
End User.

Module Plan.
Record t := mk { maxDevices : Z }.
End Plan.

Module Tenant.
Record t := mk { planId : option Id }.
End Tenant.

Inductive DeviceType := WEB.

Module DeviceSession.
Record t := mk {
    userId : Id;
    fingerprint : string;
    deviceType : DeviceType;
    userAgent : string;
    ipAddress : string;
    active : bool;
    lastSeen : Time
  }.
End DeviceSession.

Module PendingDeviceSession.
Record t := mk {
    userId : Id;
    fingerprint : string;
    deviceType : DeviceType;
    userAgent : string;
    ipAddress : string
  }.
End PendingDeviceSession.

Inductive OTPType := EMAIL | SMS.

Module OTPVerification.
Record t := mk {
    email : option string;
    phone : option string;
    code : string;
    type : OTPType;
    expiresAt : Time;
    verified : bool
  }.
End OTPVerification.

Inductive AuditAction := USER_SIGNIN | USER_SIGNOUT.

Module AuditLog.
Record t := mk {
    userId : Id;
    tenantId : option Id;
    action : AuditAction;
    provider : option string;
    isNewUser : option bool;
    timestamp : Time
  }.
End AuditLog.

Record Store := mkStore {
  users : list User.t;
  tenants : list Tenant.t;
  plans : list Plan.t;
  deviceSessions : list DeviceSession.t;
  pendingDeviceSessions : list PendingDeviceSession.t;
  otpVerifications : list OTPVerification.t;
  auditLogs : list AuditLog.t
}.

#[global] Instance OTPType_eq_dec : EqDecision OTPType.
Proof. solve_decision. Defined.

(** ** Environment, outcomes and the monad of async functions *)

Inductive Op :=
  | RandomBytes
  | UserFindUnique
  | UserCreate
  | DeviceSessionCount
  | DeviceSessionCreate
  | DeviceSessionUpdateMany
  | PendingDeviceSessionCreate
  | OTPFindFirst
  | OTPUpdate
  | OTPCreate
  | AuditLogCreate
  | TwilioMessagesCreate.

#[global] Instance Op_eq_dec : EqDecision Op.
Proof. solve_decision. Defined.

Record Env := mkEnv {
  now : Time;            (* the clock read by [new Date()] / [Date.now()] *)
  fails : Op -> bool;    (* the external calls that throw *)
  random : Z;            (* the draw of [Math.random()], times 2^1074 *)
  entropy : string       (* [randomBytes(16).toString('hex')] *)
}.

Record World := mkWorld {
  store : Store;
  trace : list Op
}.

Inductive Outcome (A : Type) :=
  | Ok (a : A)
  | Throw.
Arguments Ok {A} a.
Arguments Throw {A}.

Definition M (A : Type) : Type := World -> World * Outcome A.

Definition ret {A} (a : A) : M A := fun w => (w, Ok a).

Definition bind {A B} (m : M A) (k : A -> M B) : M B :=
  fun w => match m w with
           | (w', Ok a) => k a w'
           | (w', Throw) => (w', Throw)
           end.

Notation "x <- m ;; k" := (bind m (fun x => k))
  (at level 90, m at next level, right associativity).
Notation "m ;;; k" := (bind m (fun _ => k))
  (at level 90, right associativity).

(** [try { m } catch (error) { console.error(..); h }] *)
Definition try_catch {A} (m : M A) (h : M A) : M A :=
  fun w => match m w with
           | (w', Ok a) => (w', Ok a)
           | (w', Throw) => h w'
           end.

(** An external call: it is recorded, then it throws or it runs [f] on the
    tables.  [f] itself answers [None] where the data layer rejects the
    request (a missing row, a unique constraint). *)
Definition call {A} (env : Env) (op : Op) (f : Store -> option (Store * A)) : M A :=
  fun w =>
    let w' := mkWorld (store w) (trace w ++ [op]) in
    if fails env op then (w', Throw)
    else match f (store w) with
         | Some (s', a) => (mkWorld s' (trace w'), Ok a)
         | None => (w', Throw)
         end.

Definition run {A} (m : M A) (s : Store) : World * Outcome A :=
  m (mkWorld s []).

(** ** The data layer *)

Definition set_users (s : Store) (l : list User.t) : Store :=
  mkStore l (tenants s) (plans s) (deviceSessions s)
          (pendingDeviceSessions s) (otpVerifications s) (auditLogs s).

Definition set_deviceSessions (s : Store) (l : list DeviceSession.t) : Store :=
  mkStore (users s) (tenants s) (plans s) l
          (pendingDeviceSessions s) (otpVerifications s) (auditLogs s).

Definition set_pendingDeviceSessions (s : Store) (l : list PendingDeviceSession.t) : Store :=
  mkStore (users s) (tenants s) (plans s) (deviceSessions s)
          l (otpVerifications s) (auditLogs s).

Definition set_otpVerifications (s : Store) (l : list OTPVerification.t) : Store :=
  mkStore (users s) (tenants s) (plans s) (deviceSessions s)
          (pendingDeviceSessions s) l (auditLogs s).

Definition set_auditLogs (s : Store) (l : list AuditLog.t) : Store :=
  mkStore (users s) (tenants s) (plans s) (deviceSessions s)
          (pendingDeviceSessions s) (otpVerifications s) l.

(** The unique column a [findUnique] on users selects by. *)
Inductive UserKey :=
  | ByEmail (email : string)
  | ByPhone (phone : string).

Definition userHasKey (k : UserKey) (u : User.t) : Prop :=
  match k with
  | ByEmail e => User.email u = Some e
  | ByPhone p => User.phone u = Some p
  end.

#[global] Instance userHasKey_dec k u : Decision (userHasKey k u).
Proof. destruct k; simpl; apply _. Defined.

(** [include: { tenant: { include: { plan: true } } }] *)
Definition tenantOf (s : Store) (u : User.t) : option Tenant.t :=
  match User.tenantId u with
  | Some tid => tenants s !! tid
  | None => None
  end.

Definition planOf (s : Store) (t : Tenant.t) : option Plan.t :=
  match Tenant.planId t with
  | Some pid => plans s !! pid
  | None => None
  end.

(** A user row as [findUnique] returns it: its key, its columns and the
    included tenant with that tenant's plan. *)
Record FoundUser := mkFoundUser {
  fu_id : Id;
  fu_row : User.t;
  fu_tenant : option (Tenant.t * option Plan.t)
}.

Definition withTenant (s : Store) (ir : Id * User.t) : FoundUser :=
  mkFoundUser ir.1 ir.2
    (match tenantOf s ir.2 with
     | Some t => Some (t, planOf s t)
     | None => None
     end).

(** A [where] whose only field is [undefined] is rejected by the client. *)
Definition user_findUnique (env : Env) (k : option UserKey) : M (option FoundUser) :=
  call env UserFindUnique
       (fun s => match k with
                 | Some k => Some (s, withTenant s <$> list_find (userHasKey k) (users s))
                 | None => None
                 end).

(** [email] and [phone] are unique columns (that is what lets [findUnique]
    select by them), so a create that repeats one is rejected. *)
Definition keyTaken (l : list User.t) (k : option UserKey) : bool :=
  match k with
  | Some k => bool_decide (is_Some (list_find (userHasKey k) l))
  | None => false
  end.

Definition uniqueClash (l : list User.t) (u : User.t) : bool :=
  keyTaken l (ByEmail <$> User.email u) || keyTaken l (ByPhone <$> User.phone u).

Definition user_create (env : Env) (u : User.t) : M FoundUser :=
  call env UserCreate
       (fun s => if uniqueClash (users s) u then None
                 else let s' := set_users s (users s ++ [u]) in
                      Some (s', withTenant s' (length (users s), u))).

(** [prisma.deviceSession.count({ where: { userId, active: true } })] *)
Definition isActiveOf (uid : Id) (d : DeviceSession.t) : Prop :=
  DeviceSession.userId d = uid ∧ DeviceSession.active d = true.

#[global] Instance isActiveOf_dec uid d : Decision (isActiveOf uid d).
Proof. unfold isActiveOf; apply _. Defined.

Definition countActive (uid : Id) (l : list DeviceSession.t) : nat :=
  length (filter (isActiveOf uid) l).

Definition deviceSession_count (env : Env) (uid : Id) : M nat :=
  call env DeviceSessionCount
       (fun s => Some (s, countActive uid (deviceSessions s))).

Definition deviceSession_create (env : Env) (d : DeviceSession.t) : M unit :=
  call env DeviceSessionCreate
       (fun s => Some (set_deviceSessions s (deviceSessions s ++ [d]), tt)).

Definition pendingDeviceSession_create (env : Env) (p : PendingDeviceSession.t) : M unit :=
  call env PendingDeviceSessionCreate
       (fun s => Some (set_pendingDeviceSessions s (pendingDeviceSessions s ++ [p]), tt)).

(** [updateMany({ where: { userId, active: true },
                  data: { active: false, lastSeen } })] *)
Definition deactivate (uid : Id) (t : Time) (d : DeviceSession.t) : DeviceSession.t :=
  if decide (isActiveOf uid d)
  then DeviceSession.mk (DeviceSession.userId d) (DeviceSession.fingerprint d)
         (DeviceSession.deviceType d) (DeviceSession.userAgent d)
         (DeviceSession.ipAddress d) false t
  else d.

Definition deviceSession_updateMany (env : Env) (uid : Id) (t : Time) : M unit :=
  call env DeviceSessionUpdateMany
       (fun s => Some (set_deviceSessions s (deactivate uid t <$> deviceSessions s), tt)).

(** The [where] of the two [oTPVerification.findFirst] calls. *)
Definition otpHasKey (k : UserKey) (r : OTPVerification.t) : Prop :=
  match k with
  | ByEmail e => OTPVerification.email r = Some e
  | ByPhone p => OTPVerification.phone r = Some p
  end.

#[global] Instance otpHasKey_dec k r : Decision (otpHasKey k r).
Proof. destruct k; simpl; apply _. Defined.

Definition otpWhere (k : UserKey) (code : string) (ty : OTPType) (t : Time)
    (r : OTPVerification.t) : Prop :=
  otpHasKey k r ∧ OTPVerification.code r = code ∧ OTPVerification.type r = ty
  ∧ t < OTPVerification.expiresAt r ∧ OTPVerification.verified r = false.

#[global] Instance otpWhere_dec k code ty t r : Decision (otpWhere k code ty t r).
Proof. unfold otpWhere; apply _. Defined.

Definition otp_findFirst (env : Env) (k : UserKey) (code : string) (ty : OTPType)
    : M (option (Id * OTPVerification.t)) :=
  call env OTPFindFirst
       (fun s => Some (s, list_find (otpWhere k code ty (now env)) (otpVerifications s))).

(** [update({ where: { id }, data: { verified: true } })]; a missing row is
    rejected. *)
Definition markVerified (r : OTPVerification.t) : OTPVerification.t :=
  OTPVerification.mk (OTPVerification.email r) (OTPVerification.phone r)
    (OTPVerification.code r) (OTPVerification.type r)
    (OTPVerification.expiresAt r) true.

Definition otp_update_verified (env : Env) (id : Id) : M unit :=
  call env OTPUpdate
       (fun s => match otpVerifications s !! id with
                 | Some r => Some (set_otpVerifications s
                                     (<[id := markVerified r]> (otpVerifications s)), tt)
                 | None => None
                 end).

Definition otp_create (env : Env) (r : OTPVerification.t) : M unit :=
  call env OTPCreate
       (fun s => Some (set_otpVerifications s (otpVerifications s ++ [r]), tt)).

Definition auditLog_create (env : Env) (a : AuditLog.t) : M unit :=
  call env AuditLogCreate
       (fun s => Some (set_auditLogs s (auditLogs s ++ [a]), tt)).

Definition twilio_messages_create (env : Env) (to body : string) : M unit :=
  call env TwilioMessagesCreate (fun s => Some (s, tt)).

(** ** The handlers of [authOptions] *)

(** JavaScript truthiness of an optional string: [undefined], [null] and the
    empty string are falsy. *)
Definition truthy (x : option string) : bool :=
  match x with
  | Some s => negb (String.eqb s "")
  | None => false
  end.

Record Credentials := mkCredentials {
  identifier : option string;   (* [credentials?.email] or [credentials?.phone] *)
  otp : option string           (* [credentials?.otp] *)
}.

(** The object [authorize] returns. *)
Record AuthUser := mkAuthUser {
  au_id : Id;
  au_email : option string;
  au_name : option string;
  au_image : option string;
  au_role : Role;
  au_tenantId : option Id;
  au_phone : option string;
  au_phoneVerified : option Time
}.

Definition toAuthUser (u : FoundUser) : AuthUser :=
  let r := fu_row u in
  mkAuthUser (fu_id u) (User.email r) (User.name r) (User.image r) (User.role r)
             (User.tenantId r) (User.phone r) (User.phoneVerified r).

(** The two credentials providers differ in the column they select by, the
    OTP type and the columns of a user they create. *)
Inductive Channel := EmailOtp | PhoneOtp.

Definition keyOf (ch : Channel) (ident : string) : UserKey :=
  match ch with EmailOtp => ByEmail ident | PhoneOtp => ByPhone ident end.

Definition otpTypeOf (ch : Channel) : OTPType :=
  match ch with EmailOtp => EMAIL | PhoneOtp => SMS end.

Definition newUser (ch : Channel) (ident : string) (t : Time) : User.t :=
  match ch with
  | EmailOtp => User.mk (Some ident) (Some t) None None None None CUSTOMER None
  | PhoneOtp => User.mk None None (Some ident) (Some t) None None CUSTOMER None
  end.

(** [findFirst] of the [try] block. *)
Definition authorize_find (ch : Channel) (env : Env) (ident code : string)
    : M (option (Id * OTPVerification.t)) :=
  otp_findFirst env (keyOf ch ident) code (otpTypeOf ch).

(** The [try] block from [if (!otpRecord)] on. *)
Definition authorize_consume (ch : Channel) (env : Env) (ident : string)
    (otpRecord : option (Id * OTPVerification.t)) : M (option AuthUser) :=
  match otpRecord with
  | None => ret None
  | Some (id, _) =>
      otp_update_verified env id ;;;
      found <- user_findUnique env (Some (keyOf ch ident)) ;;
      user <- match found with
              | Some u => ret u
              | None => user_create env (newUser ch ident (now env))
              end ;;
      ret (Some (toAuthUser user))
  end.

Definition authorize (ch : Channel) (env : Env) (credentials : Credentials)
    : M (option AuthUser) :=
  if negb (truthy (identifier credentials)) || negb (truthy (otp credentials))
  then ret None
  else
    let ident := default "" (identifier credentials) in
    let code := default "" (otp credentials) in
    try_catch
      (otpRecord <- authorize_find ch env ident code ;;
       authorize_consume ch env ident otpRecord)
      (ret None).

Definition authorize_email_otp := authorize EmailOtp.
Definition authorize_phone_otp := authorize PhoneOtp.

(** [generateDeviceFingerprint]: [randomBytes(16).toString('hex')]. *)
Definition generateDeviceFingerprint (env : Env) : M string :=
  call env RandomBytes (fun s => Some (s, entropy env)).

(** What the [signIn] callback returns: [true], [false] or a redirect URL. *)
Inductive SignInResult :=
  | Allow
  | Deny
  | RedirectTo (url : string).

(** [v || d] on a number that may be missing: [undefined], [null] and [0]
    are falsy. *)
Definition orDefault (v : option Z) (d : Z) : Z :=
  match v with
  | Some n => if n =? 0 then d else n
  | None => d
  end.

(** [existingUser.tenant?.plan?.maxDevices || 1] *)
Definition maxDevicesOf (u : FoundUser) : Z :=
  orDefault (match fu_tenant u with
             | Some (_, Some p) => Some (Plan.maxDevices p)
             | _ => None
             end) 1.

(** The body of [if (existingUser)] in the [signIn] callback, followed by the
    [return true] it falls through to when it does not return the redirect. *)
Definition checkDeviceLimits (env : Env) (existingUser : FoundUser)
    (deviceFingerprint : string) : M SignInResult :=
  activeDevices <- deviceSession_count env (fu_id existingUser) ;;
  let maxDevices := maxDevicesOf existingUser in
  if Z.of_nat activeDevices >=? maxDevices then
    pendingDeviceSession_create env
      (PendingDeviceSession.mk (fu_id existingUser) deviceFingerprint WEB
                               "Unknown" "0.0.0.0") ;;;
    ret (RedirectTo "/auth/device-limit-exceeded")
  else
    deviceSession_create env
      (DeviceSession.mk (fu_id existingUser) deviceFingerprint WEB
                        "Unknown" "0.0.0.0" true (now env)) ;;;
    ret Allow.

(** The [signIn] callback, on [user.email] and [account?.provider]. *)
Definition signIn (env : Env) (userEmail : option string) (provider : option string)
    : M SignInResult :=
  try_catch
    (deviceFingerprint <- generateDeviceFingerprint env ;;
     if decide (provider = Some "google") then
       existingUser <- user_findUnique env (ByEmail <$> userEmail) ;;
       match existingUser with
       | Some u => checkDeviceLimits env u deviceFingerprint
       | None => ret Allow
       end
     else ret Allow)
    (ret Deny).


(** The [signOut] event, on [token?.sub] and [token.tenantId]. *)
Definition signOut_event (env : Env) (sub : option Id) (tenantId : option Id) : M unit :=
  match sub with
  | Some uid =>
      deviceSession_updateMany env uid (now env) ;;;
      auditLog_create env
        (AuditLog.mk uid tenantId USER_SIGNOUT None None (now env))
  | None => ret tt
  end.

(** ** OTP dispatch *)

(** JavaScript numbers are binary64.  The numbers of the code draw (the
    draw, its product with 900000, the sum with 100000) are nonnegative
    multiples of 2^-1074, the spacing of the smallest binary64 values; such a
    number [x] is held as the integer [x * 2^1074]. *)
Definition fixedOne : Z := 2 ^ 1074.

(** [X / 2^s] rounded to the nearest integer, ties to the even one. *)
Definition roundHalfEven (X s : Z) : Z :=
  let q := X / 2 ^ s in
  let r := X mod 2 ^ s in
  if 2 * r <? 2 ^ s then q
  else if 2 ^ s <? 2 * r then q + 1
  else if Z.even q then q else q + 1.

(** The low bits a binary64 cannot keep: a significand has 53 bits. *)
Definition dropBits (X : Z) : Z := Z.max 0 (Z.log2 X - 52).

(** Rounding to binary64, to nearest, ties to even (the range of the code
    draw is far from overflow). *)
Definition round64 (X : Z) : Z :=
  roundHalfEven X (dropBits X) * 2 ^ dropBits X.

Definition isBinary64 (X : Z) : Prop := 0 ≤ X ∧ round64 X = X.

(** [Math.floor(100000 + Math.random() * 900000)] on the draw [R / 2^1074]:
    the product and the sum are each rounded to binary64. *)
Definition otpNumber (R : Z) : Z :=
  let product := round64 (R * 900000) in
  let sum := round64 (100000 * fixedOne + product) in
  sum / fixedOne.

(** The same expression in exact arithmetic, on a rational draw. *)
Definition otpNumberExact (r : Q) : Z :=
  Qfloor (100000 + r * 900000)%Q.

(** [Number.prototype.toString] on an integer: its decimal digits, with a
    minus sign when negative. *)
Definition digitChar (d : Z) : Ascii.ascii := Ascii.ascii_of_nat (48 + Z.to_nat d).

Fixpoint digitsOf (fuel : nat) (n : Z) (acc : string) : string :=
  match fuel with
  | O => acc
  | S fuel' =>
      let acc' := String (digitChar (n mod 10)) acc in
      if n <? 10 then acc' else digitsOf fuel' (n / 10) acc'
  end.

Definition toString (n : Z) : string :=
  if n <? 0 then String (Ascii.ascii_of_nat 45) (digitsOf (S (Z.to_nat (Z.log2 (- n)))) (- n) "")
  else digitsOf (S (Z.to_nat (Z.log2 n))) n "".

Definition generateCode (env : Env) : string := toString (otpNumber (random env)).

(** [new Date(Date.now() + 10 * 60 * 1000)] *)
Definition otpExpiry (env : Env) : Time := now env + 10 * 60 * 1000.

Definition sendEmailOTP (env : Env) (email : string) : M bool :=
  try_catch
    (let code := generateCode env in
     let expiresAt := otpExpiry env in
     otp_create env (OTPVerification.mk (Some email) None code EMAIL expiresAt false) ;;;
     ret true)
    (ret false).

Definition sendSMSOTP (env : Env) (phone : string) : M bool :=
  try_catch
    (let code := generateCode env in
     let expiresAt := otpExpiry env in
     otp_create env (OTPVerification.mk None (Some phone) code SMS expiresAt false) ;;;
     twilio_messages_create env phone
       ("Your Hospity.AI verification code is: " +:+ code
        +:+ ". This code will expire in 10 minutes.") ;;;
     ret true)
    (ret false).

(** ** Two sign-in requests interleaved at their first [await]

    Each [await] of an async function is a point where another request can
    run.  [authorize_begin] is a request up to the answer of its
    [findFirst]; [authorize_resume] is the rest of it. *)

Inductive Suspended :=
  | Returned (result : option AuthUser)
  | AwaitedFind (ident : string) (otpRecord : option (Id * OTPVerification.t)).

Definition authorize_begin (ch : Channel) (env : Env) (credentials : Credentials)
    : M Suspended :=
  if negb (truthy (identifier credentials)) || negb (truthy (otp credentials))
  then ret (Returned None)
  else
    let ident := default "" (identifier credentials) in
    let code := default "" (otp credentials) in
    try_catch
      (otpRecord <- authorize_find ch env ident code ;;
       ret (AwaitedFind ident otpRecord))
      (ret (Returned None)).

Definition authorize_resume (ch : Channel) (env : Env) (p : Suspended)
    : M (option AuthUser) :=
  match p with
  | Returned r => ret r
  | AwaitedFind ident otpRecord =>
      try_catch (authorize_consume ch env ident otpRecord) (ret None)
  end.


(** ** Notions used by the statements *)

(** Every user of the table has at most as many active device sessions as
    the limit the [signIn] callback computes for that user. *)
Definition withinLimit (s : Store) : Prop :=
  ∀ uid row, users s !! uid = Some row →
    Z.of_nat (countActive uid (deviceSessions s)) ≤ maxDevicesOf (withTenant s (uid, row)).

(** The tables after a deferred and after an admitted sign-in. *)
Definition refused (u : FoundUser) (fp : string) (s : Store) : Store :=
  set_pendingDeviceSessions s
    (pendingDeviceSessions s
     ++ [PendingDeviceSession.mk (fu_id u) fp WEB "Unknown" "0.0.0.0"]).

Definition admitted (env : Env) (u : FoundUser) (fp : string) (s : Store) : Store :=
  set_deviceSessions s
    (deviceSessions s
     ++ [DeviceSession.mk (fu_id u) fp WEB "Unknown" "0.0.0.0" true (now env)]).

(** A string of exactly six decimal digits. *)
Definition isDigit (c : Ascii.ascii) : bool :=
  (48 <=? Ascii.nat_of_ascii c)%nat && (Ascii.nat_of_ascii c <=? 57)%nat.

Fixpoint allDigits (s : string) : bool :=
  match s with
  | EmptyString => true
  | String c s' => isDigit c && allDigits s'
  end.

Definition sixDigits (s : string) : Prop :=
  String.length s = 6%nat ∧ allDigits s = true.

(** The number a string of decimal digits denotes. *)
Definition digitValue (c : Ascii.ascii) : Z := Z.of_nat (Ascii.nat_of_ascii c) - 48.

Fixpoint readDecimalFrom (acc : Z) (s : string) : Z :=
  match s with
  | EmptyString => acc
  | String c s' => readDecimalFrom (10 * acc + digitValue c) s'
  end.

Definition readDecimal (s : string) : Z := readDecimalFrom 0 s.

(** The tables after [authorize] has marked row [id] verified, and after it
    has also created the user. *)
Definition consumed (id : Id) (r : OTPVerification.t) (s : Store) : Store :=
  set_otpVerifications s (<[id := markVerified r]> (otpVerifications s)).

Definition registered (ch : Channel) (env : Env) (ident : string) (s : Store) : Store :=
  set_users s (users s ++ [newUser ch ident (now env)]).

(** A row that the [where] of [findFirst] accepts at some time: the
    identifier, the code and the type match and the row is not verified. *)
Definition candidate (ch : Channel) (ident code : string) (r : OTPVerification.t) : Prop :=
  otpHasKey (keyOf ch ident) r ∧ OTPVerification.code r = code
  ∧ OTPVerification.type r = otpTypeOf ch ∧ OTPVerification.verified r = false.


(** What the [catch] of the callback makes of the device-limit check. *)
Definition caught (r : World * Outcome SignInResult) : World * Outcome SignInResult :=
  (r.1, Ok (match r.2 with Ok x => x | Throw => Deny end)).

(** The device-limit check ran: the callback counted the active sessions. *)
Definition gateInvoked (w : World) : Prop := DeviceSessionCount ∈ trace w.

#[global] Instance gateInvoked_dec w : Decision (gateInvoked w).
Proof. unfold gateInvoked; apply _. Defined.

(** The three ways a user ends up with the default limit. *)
Definition lacksLimit (u : FoundUser) : Prop :=
  fu_tenant u = None
  ∨ (∃ t, fu_tenant u = Some (t, None))
  ∨ (∃ t p, fu_tenant u = Some (t, Some p) ∧ Plan.maxDevices p = 0).

(** ** The other callbacks of [authOptions] *)

(** The JWT the callbacks see: [sub] and [email] are set by the framework,
    the other four fields by the [jwt] callback. *)
Record Token := mkToken {
  t_sub : option Id;
  t_email : option string;
  t_role : option Role;
  t_tenantId : option Id;
  t_phone : option string;
  t_phoneVerified : option Time
}.

(** The four assignments [token.role = ..; token.tenantId = ..;
    token.phone = ..; token.phoneVerified = ..]. *)
Definition assignClaims (token : Token) (role : option Role) (tenantId : option Id)
    (phone : option string) (phoneVerified : option Time) : Token :=
  mkToken (t_sub token) (t_email token) role tenantId phone phoneVerified.

(** The [jwt] callback, on [token] and [user]. *)
Definition jwt (env : Env) (token : Token) (user : option AuthUser) : M Token :=
  let token :=
    match user with
    | Some u => assignClaims token (Some (au_role u)) (au_tenantId u)
                  (au_phone u) (au_phoneVerified u)
    | None => token
    end in
  if truthy (t_email token) then
    try_catch
      (dbUser <- user_findUnique env (ByEmail <$> t_email token) ;;
       match dbUser with
       | Some d =>
           let r := fu_row d in
           ret (assignClaims token (Some (User.role r)) (User.tenantId r)
                  (User.phone r) (User.phoneVerified r))
       | None => ret token
       end)
      (ret token)
  else ret token.

(** [session.user], with the fields the [session] callback adds. *)
Record SessionUser := mkSessionUser {
  su_name : option string;
  su_email : option string;
  su_image : option string;
  su_id : option Id;
  su_role : option Role;
  su_tenantId : option Id;
  su_phone : option string;
  su_phoneVerified : option Time
}.

Record Session := mkSession {
  s_user : option SessionUser;
  s_expires : string
}.

(** The [session] callback, on [session] and [token]. *)
Definition session_callback (session : Session) (token : Token) : Session :=
  match s_user session with
  | Some su =>
      mkSession
        (Some (mkSessionUser (su_name su) (su_email su) (su_image su)
                 (t_sub token) (t_role token) (t_tenantId token)
                 (t_phone token) (t_phoneVerified token)))
        (s_expires session)
  | None => session
  end.

(** [String.prototype.startsWith] and [String.prototype.includes]. *)
Fixpoint startsWith (p s : string) : bool :=
  match p, s with
  | EmptyString, _ => true
  | String a p', String b s' => if Ascii.eqb a b then startsWith p' s' else false
  | String _ _, EmptyString => false
  end.

Fixpoint includes (p s : string) : bool :=
  if startsWith p s then true
  else match s with
       | EmptyString => false
       | String _ s' => includes p s'
       end.

(** The [redirect] callback, on [url] and [baseUrl].  [originOf url] is
    [new URL(url).origin], [None] where the constructor throws; the callback
    then throws too ([None]). *)
Definition redirect (originOf : string -> option string) (url baseUrl : string)
    : option string :=
  if includes "device-limit-exceeded" url then
    Some (baseUrl +:+ "/auth/device-limit-exceeded")
  else if String.eqb url baseUrl then
    Some (baseUrl +:+ "/dashboard")
  else if startsWith "/" url then
    Some (baseUrl +:+ url)
  else
    match originOf url with
    | Some origin => if String.eqb origin baseUrl then Some url else Some baseUrl
    | None => None
    end.

(** ** The customer menu page: cart and menu filters *)

Module Menu.

(** The fields of a [MenuItem] the filters read. *)
Record MenuItem := mkMenuItem {
  id : string;
  name : string;
  description : string;
  category : string;
  dietary : list string;
  tags : list string;
  available : bool
}.

(** A [CartItem]; quantities are whole numbers, and the price, which the
    functions below copy and never compute with, is of any type. *)
Record CartItem (Price : Type) := mkCartItem {
  menuItemId : string;
  quantity : Z;
  modifiers : list (string * list string);
  specialInstructions : option string;
  price : Price
}.
Arguments mkCartItem {Price}.
Arguments menuItemId {Price}.
Arguments quantity {Price}.
Arguments modifiers {Price}.
Arguments specialInstructions {Price}.
Arguments price {Price}.

(** [Array.from(new Set(xs))]: a set keeps its elements in the order of
    their first insertion. *)
Fixpoint setAddAll (seen xs : list string) : list string :=
  match xs with
  | [] => seen
  | x :: xs' => setAddAll (if decide (x ∈ seen) then seen else seen ++ [x]) xs'
  end.

(** [categories]; [menu] is [None] until the query has answered. *)
Definition categories (menu : option (list MenuItem)) : list string :=
  match menu with
  | None => []
  | Some items => "all" :: setAddAll [] (category <$> items)
  end.

(** The callback of [menu.filter] in [filteredMenu]; [toLowerCase] is
    [String.prototype.toLowerCase]. *)
Definition menuFilter (toLowerCase : string -> string) (searchQuery selectedCategory : string)
    (selectedFilters : list string) (item : MenuItem) : bool :=
  if negb (String.eqb searchQuery "")
     && negb (includes (toLowerCase searchQuery) (toLowerCase (name item)))
     && negb (includes (toLowerCase searchQuery) (toLowerCase (description item)))
  then false
  else if negb (String.eqb selectedCategory "all")
          && negb (String.eqb (category item) selectedCategory)
  then false
  else if (0 <? length selectedFilters)%nat
          && negb (existsb (fun f => bool_decide (f ∈ dietary item)
                                     || bool_decide (f ∈ tags item))
                           selectedFilters)
  then false
  else available item.

Definition filteredMenu (toLowerCase : string -> string) (menu : option (list MenuItem))
    (searchQuery selectedCategory : string) (selectedFilters : list string)
    : list MenuItem :=
  match menu with
  | None => []
  | Some items =>
      filter (fun item => menuFilter toLowerCase searchQuery selectedCategory
                            selectedFilters item = true) items
  end.

(** The [onClick] of a dietary filter button. *)
Definition toggleFilter (selected : string) (prev : list string) : list string :=
  if bool_decide (selected ∈ prev)
  then filter (fun f => f ≠ selected) prev
  else prev ++ [selected].

(** The numbers the page computes with are binary64 numbers.  Those that
    are whole are held in [Z], and [infinity] and its opposite stand for
    [Infinity] and [-Infinity]: every finite binary64 number is smaller in
    magnitude than 2^1024, so the order of [Z] is the order of the numbers. *)
Definition infinity : Z := 2 ^ 1024.

(** [x + y] on two such numbers: the exact sum rounded to a significand of
    53 bits, to nearest, ties to even, and [Infinity] when the rounded sum
    reaches 2^1024.  An infinite operand is the result: the other operand is
    a quantity or the literal 1 or -1, and two infinite operands of opposite
    sign, whose sum is [NaN], do not occur among quantities of at least 1. *)
Definition jsAdd (x y : Z) : Z :=
  if infinity <=? Z.abs x then x
  else if infinity <=? Z.abs y then y
  else
    let rounded := round64 (Z.abs (x + y)) in
    Z.sgn (x + y) * (if infinity <=? rounded then infinity else rounded).

(** [cartItemCount] *)
Definition cartItemCount {Price} (cart : list (CartItem Price)) : Z :=
  fold_left (fun count item => jsAdd count (quantity item)) cart 0.

(** [prev.filter((_, i) => i !== index)] and
    [prev.map((item, i) => i === index ? { ...item, quantity } : item)] *)
Definition removeAt {A} (index : nat) (l : list A) : list A :=
  snd <$> filter (fun p => p.1 ≠ index) (imap (fun i x => (i, x)) l).

Definition setQuantity {Price} (q : Z) (item : CartItem Price) : CartItem Price :=
  mkCartItem (menuItemId item) q (modifiers item) (specialInstructions item) (price item).

Definition updateCartItemQuantity {Price} (index : nat) (newQuantity : Z)
    (cart : list (CartItem Price)) : list (CartItem Price) :=
  if newQuantity =? 0 then removeAt index cart
  else imap (fun i item => if (i =? index)%nat then setQuantity newQuantity item else item)
            cart.

(** The minus and plus buttons of a cart line. *)
Definition cartMinus {Price} (index : nat) (cart : list (CartItem Price))
    : list (CartItem Price) :=
  match cart !! index with
  | Some item => updateCartItemQuantity index (jsAdd (quantity item) (-1)) cart
  | None => cart
  end.

Definition cartPlus {Price} (index : nat) (cart : list (CartItem Price))
    : list (CartItem Price) :=
  match cart !! index with
  | Some item => updateCartItemQuantity index (jsAdd (quantity item) 1) cart
  | None => cart
  end.

(** The state of the page that the cart and the item dialog use, as the
    [useState] hooks declare it. *)
Record Page (Price : Type) := mkPage {
  p_cart : list (CartItem Price);
  p_selectedItem : option MenuItem;
  p_itemQuantity : Z;
  p_itemModifiers : list (string * list string);
  p_specialInstructions : string
}.
Arguments mkPage {Price}.
Arguments p_cart {Price}.
Arguments p_selectedItem {Price}.
Arguments p_itemQuantity {Price}.
Arguments p_itemModifiers {Price}.
Arguments p_specialInstructions {Price}.

Definition initialPage {Price} : Page Price := mkPage [] None 1 [] "".

(** [addToCart]; [priceOf] is the price it computes from the selected item
    and the chosen modifiers. *)
Definition addToCart {Price} (priceOf : MenuItem -> list (string * list string) -> Price)
    (p : Page Price) : Page Price :=
  match p_selectedItem p with
  | None => p
  | Some selected =>
      let cartItem :=
        mkCartItem (id selected) (p_itemQuantity p) (p_itemModifiers p)
          (if String.eqb (p_specialInstructions p) "" then None
           else Some (p_specialInstructions p))
          (priceOf selected (p_itemModifiers p)) in
      mkPage (p_cart p ++ [cartItem]) None 1 [] ""
  end.

(** What the customer, or the answer to a placed order, can do to that
    state. *)
Inductive Event :=
  | SelectItem (item : MenuItem)
  | CloseDialog
  | PickerMinus
  | PickerPlus
  | SetItemModifiers (chosen : list (string * list string))
  | SetSpecialInstructions (text : string)
  | AddToCart
  | CartMinus (index : nat)
  | CartPlus (index : nat)
  | OrderPlaced.

Definition handle {Price} (priceOf : MenuItem -> list (string * list string) -> Price)
    (p : Page Price) (e : Event) : Page Price :=
  match e with
  | SelectItem item =>
      mkPage (p_cart p) (Some item) (p_itemQuantity p) (p_itemModifiers p)
        (p_specialInstructions p)
  | CloseDialog =>
      mkPage (p_cart p) None (p_itemQuantity p) (p_itemModifiers p)
        (p_specialInstructions p)
  | PickerMinus =>
      mkPage (p_cart p) (p_selectedItem p) (Z.max 1 (jsAdd (p_itemQuantity p) (-1)))
        (p_itemModifiers p) (p_specialInstructions p)
  | PickerPlus =>
      mkPage (p_cart p) (p_selectedItem p) (jsAdd (p_itemQuantity p) 1)
        (p_itemModifiers p) (p_specialInstructions p)
  | SetItemModifiers chosen =>
      mkPage (p_cart p) (p_selectedItem p) (p_itemQuantity p) chosen
        (p_specialInstructions p)
  | SetSpecialInstructions text =>
      mkPage (p_cart p) (p_selectedItem p) (p_itemQuantity p) (p_itemModifiers p) text
  | AddToCart => addToCart priceOf p
  | CartMinus index =>
      mkPage (cartMinus index (p_cart p)) (p_selectedItem p) (p_itemQuantity p)
        (p_itemModifiers p) (p_specialInstructions p)
  | CartPlus index =>
      mkPage (cartPlus index (p_cart p)) (p_selectedItem p) (p_itemQuantity p)
        (p_itemModifiers p) (p_specialInstructions p)
  | OrderPlaced =>
      mkPage [] (p_selectedItem p) (p_itemQuantity p) (p_itemModifiers p)
        (p_specialInstructions p)
  end.

(** The state after a sequence of events on a freshly loaded page. *)
Definition pageAfter {Price} (priceOf : MenuItem -> list (string * list string) -> Price)
    (events : list Event) : Page Price :=
  fold_left (handle priceOf) events initialPage.

End Menu.

(** The sum of the quantities of a cart, computed exactly. *)
Definition quantitySum {Price} (cart : list (Menu.CartItem Price)) : Z :=
  foldr (fun item sum => Menu.quantity item + sum) 0 cart.

(** No two rows of the user table share an email or a phone. *)
Definition uniqueUsers (s : Store) : Prop :=
  ∀ k i j ui uj,
    users s !! i = Some ui → users s !! j = Some uj →
    userHasKey k ui → userHasKey k uj → i = j.

(** ** Sample data *)

Module Sample.
Definition noFaults : Op -> bool := fun _ => false.
Definition onlyFails (op : Op) : Op -> bool := fun o => bool_decide (o = op).

(** The draw of the sample environments is one half. *)
Definition envAt (t : Z) : Env := mkEnv t noFaults (2 ^ 1073) "a3f1".
Definition env0 : Env := envAt 1000.

Definition alice : User.t :=
  User.mk (Some "alice@example.com") (Some 0) None None (Some "Alice") None
          CUSTOMER (Some 0%nat).
Definition bob : User.t :=
  User.mk (Some "bob@example.com") (Some 0) (Some "+15551234567") (Some 0) None None
          CUSTOMER None.

Definition session (uid : Id) (fp : string) (a : bool) : DeviceSession.t :=
  DeviceSession.mk uid fp WEB "Unknown" "0.0.0.0" a 0.

(** Alice's tenant is on a plan of three devices and she has two active
    sessions; Bob has no tenant and one active session. *)
Definition store0 : Store :=
  mkStore [alice; bob] [Tenant.mk (Some 0%nat)] [Plan.mk 3]
          [session 0%nat "d1" true; session 1%nat "e1" true; session 0%nat "d2" true;
           session 0%nat "d0" false]
          [] [] [].

Definition aliceFound : FoundUser := withTenant store0 (0%nat, alice).
Definition bobFound : FoundUser := withTenant store0 (1%nat, bob).

(** Code 482913 issued for Bob's phone with [expiresAt] at minute 10. *)
Definition otpBob : OTPVerification.t :=
  OTPVerification.mk None (Some "+15551234567") "482913" SMS 600000 false.
Definition credsBob : Credentials :=
  mkCredentials (Some "+15551234567") (Some "482913").
Definition storeOtp : Store := set_otpVerifications store0 [otpBob].
Definition bobAuth : AuthUser :=
  mkAuthUser 1 (Some "bob@example.com") None None CUSTOMER None
             (Some "+15551234567") (Some 0).
End Sample.

(** * Properties *)

Ltac exec :=
  unfold run, bind, ret, try_catch, call; simpl.

(** Closes [∃ op, op ∈ trace ∧ fails env op = true] with the call named. *)
Ltac failed_at op :=
  exists op; split;
  [ apply list_elem_of_In; rewrite ?in_app_iff; simpl; solve [auto 10]
  | assumption ].

(** ** Counting active sessions *)

Lemma countActive_app uid l1 l2 :
  countActive uid (l1 ++ l2) = (countActive uid l1 + countActive uid l2)%nat.
Proof. unfold countActive. by rewrite filter_app, length_app. Qed.

Lemma countActive_new_active uid uid' fp ua ip t :
  countActive uid' [DeviceSession.mk uid fp WEB ua ip true t]
  = if decide (uid = uid') then 1%nat else 0%nat.
Proof.
  unfold countActive. rewrite filter_cons, filter_nil.
  destruct (decide (uid = uid')) as [->|Hne].
  - by rewrite decide_True.
  - rewrite decide_False; [done |]. unfold isActiveOf; simpl. by intros [? _].
Qed.

(** ** Running the device-limit check *)

(** The check either fails on a call and writes nothing, or defers, or
    admits. *)
Lemma checkDeviceLimits_cases env u fp w :
  let w' := checkDeviceLimits env u fp w in
  let n := Z.of_nat (countActive (fu_id u) (deviceSessions (store w))) in
  (w'.2 = Throw ∧ store w'.1 = store w
   ∧ (∃ op, op ∈ trace w'.1 ∧ fails env op = true)
   ∧ (fails env DeviceSessionCount || fails env PendingDeviceSessionCreate
      || fails env DeviceSessionCreate = true))
  ∨ (maxDevicesOf u ≤ n ∧ w'.2 = Ok (RedirectTo "/auth/device-limit-exceeded")
     ∧ store w'.1 = refused u fp (store w)
     ∧ trace w'.1 = trace w ++ [DeviceSessionCount; PendingDeviceSessionCreate]
     ∧ fails env DeviceSessionCount = false
     ∧ fails env PendingDeviceSessionCreate = false)
  ∨ (n < maxDevicesOf u ∧ w'.2 = Ok Allow
     ∧ store w'.1 = admitted env u fp (store w)
     ∧ trace w'.1 = trace w ++ [DeviceSessionCount; DeviceSessionCreate]
     ∧ fails env DeviceSessionCount = false
     ∧ fails env DeviceSessionCreate = false).
Proof.
  unfold checkDeviceLimits, deviceSession_count, pendingDeviceSession_create,
    deviceSession_create. exec.
  destruct (fails env DeviceSessionCount) eqn:Hc; simpl.
  { left. split_and!; [done..|failed_at DeviceSessionCount|done]. }
  destruct (Z.geb_spec (Z.of_nat (countActive (fu_id u) (deviceSessions (store w))))
              (maxDevicesOf u)) as [Hge|Hlt]; simpl.
  - destruct (fails env PendingDeviceSessionCreate) eqn:Hp; simpl.
    + left. split_and!; [done..|failed_at PendingDeviceSessionCreate|done].
    + right; left. rewrite <- app_assoc. split_and!; try done; lia.
  - destruct (fails env DeviceSessionCreate) eqn:Hd; simpl.
    + left. split_and!; [done..|failed_at DeviceSessionCreate|].
      by destruct (fails env PendingDeviceSessionCreate).
    + right; right. rewrite <- app_assoc. split_and!; try done; lia.
Qed.

Lemma withTenant_ext s s' ir :
  tenants s' = tenants s → plans s' = plans s → withTenant s' ir = withTenant s ir.
Proof.
  intros Ht Hp. unfold withTenant, tenantOf, planOf. by rewrite Ht, Hp.
Qed.

Lemma withinLimit_refused u fp s : withinLimit s → withinLimit (refused u fp s).
Proof. intros H uid row Hrow. exact (H uid row Hrow). Qed.

Lemma withinLimit_admitted env s uid row fp :
  users s !! uid = Some row →
  Z.of_nat (countActive uid (deviceSessions s)) < maxDevicesOf (withTenant s (uid, row)) →
  withinLimit s →
  withinLimit (admitted env (withTenant s (uid, row)) fp s).
Proof.
  intros Hrow Hlt H uid' row' Hrow'. simpl in Hrow'.
  rewrite (withTenant_ext s (admitted env _ fp s)) by done.
  unfold admitted; simpl. rewrite countActive_app, countActive_new_active.
  destruct (decide (uid = uid')) as [<-|Hne].
  - assert (row' = row) as -> by congruence. lia.
  - specialize (H uid' row' Hrow'). lia.
Qed.

(** C1. One execution of the device-limit check of the [signIn] callback,
    for a user [uid] of the table and the limit [maxDevices] the callback
    computes for that user.  When the data layer answers: if the user has
    fewer than [maxDevices] active sessions the check admits (it creates one
    active session, creates no pending session and lets the callback return
    [true]); otherwise it defers (it creates no session, creates one pending
    session and returns the limit-exceeded redirect).  Whether or not a call
    fails, the user's count of active sessions stays at most [maxDevices] if
    it was, and the limit of every user of the table is kept. *)
Theorem checkDeviceLimits_preserves_device_limit env s uid row fp :
  users s !! uid = Some row →
  let u := withTenant s (uid, row) in
  let res := run (checkDeviceLimits env u fp) s in
  let n := Z.of_nat (countActive uid (deviceSessions s)) in
  let n' := Z.of_nat (countActive uid (deviceSessions (store res.1))) in
  (fails env DeviceSessionCount = false →
   fails env DeviceSessionCreate = false →
   fails env PendingDeviceSessionCreate = false →
   (n < maxDevicesOf u →
      res.2 = Ok Allow
      ∧ deviceSessions (store res.1)
        = deviceSessions s ++ [DeviceSession.mk uid fp WEB "Unknown" "0.0.0.0" true (now env)]
      ∧ pendingDeviceSessions (store res.1) = pendingDeviceSessions s
      ∧ n' = n + 1)
   ∧ (maxDevicesOf u ≤ n →
      res.2 = Ok (RedirectTo "/auth/device-limit-exceeded")
      ∧ deviceSessions (store res.1) = deviceSessions s
      ∧ pendingDeviceSessions (store res.1)
        = pendingDeviceSessions s ++ [PendingDeviceSession.mk uid fp WEB "Unknown" "0.0.0.0"]
      ∧ n' = n))
  ∧ (n ≤ maxDevicesOf u → n' ≤ maxDevicesOf u)
  ∧ (withinLimit s → withinLimit (store res.1)).
Proof.
  intros Hrow u res n n'.
  pose proof (checkDeviceLimits_cases env u fp (mkWorld s [])) as Hcases.
  fold (run (checkDeviceLimits env u fp) s) in Hcases. fold res in Hcases.
  simpl in Hcases. change (fu_id u) with uid in Hcases. fold n in Hcases.
  subst n'.
  destruct Hcases as [(Hr & Hs & _ & Hf) | [(Hge & Hr & Hs & _) | (Hlt & Hr & Hs & _)]];
    rewrite Hs.
  - split; [|split; [done|done]].
    intros Hc Hd Hp. by rewrite Hc, Hd, Hp in Hf.
  - unfold refused; simpl. change (fu_id u) with uid.
    split; [|split; [done|apply (withinLimit_refused u fp s)]].
    intros _ _ _. split; [lia|done].
  - unfold admitted; simpl. change (fu_id u) with uid.
    rewrite countActive_app, countActive_new_active, decide_True by done.
    split; [|split; [lia|by apply (withinLimit_admitted env s uid row fp)]].
    intros _ _ _. split; [|lia]. intros _. repeat split; try done. lia.
Qed.

Lemma withinLimit_store0 : withinLimit Sample.store0.
Proof.
  intros [|[|uid]] row Hrow; simpl in Hrow; [| |done];
    injection Hrow as <-; vm_compute; discriminate.
Defined.

Lemma checkDeviceLimits_preserves_device_limit_witness :
  (let res := run (checkDeviceLimits Sample.env0 Sample.aliceFound "d3") Sample.store0 in
   res.2 = Ok Allow
   ∧ Z.of_nat (countActive 0%nat (deviceSessions (store res.1))) = 3
   ∧ withinLimit (store res.1))
  ∧ (let res := run (checkDeviceLimits Sample.env0 Sample.bobFound "e2") Sample.store0 in
     res.2 = Ok (RedirectTo "/auth/device-limit-exceeded")
     ∧ Z.of_nat (countActive 1%nat (deviceSessions (store res.1))) = 1
     ∧ withinLimit (store res.1)).
Proof.
  split.
  - destruct (checkDeviceLimits_preserves_device_limit
                Sample.env0 Sample.store0 0%nat Sample.alice "d3" eq_refl)
      as (Heff & _ & Hinv).
    destruct (Heff eq_refl eq_refl eq_refl) as [Hadm _].
    destruct (Hadm ltac:(vm_compute; reflexivity)) as (Hr & _ & _ & Hn).
    exact (conj Hr (conj Hn (Hinv withinLimit_store0))).
  - destruct (checkDeviceLimits_preserves_device_limit
                Sample.env0 Sample.store0 1%nat Sample.bob "e2" eq_refl)
      as (Heff & _ & Hinv).
    destruct (Heff eq_refl eq_refl eq_refl) as [_ Hdef].
    destruct (Hdef ltac:(vm_compute; discriminate)) as (Hr & _ & _ & Hn).
    exact (conj Hr (conj Hn (Hinv withinLimit_store0))).
Defined.

(** ** Running the [signIn] callback *)

Lemma signIn_not_google env email provider w :
  provider ≠ Some "google" →
  signIn env email provider w
  = (mkWorld (store w) (trace w ++ [RandomBytes]),
     Ok (if fails env RandomBytes then Deny else Allow)).
Proof.
  intros Hp. unfold signIn, generateDeviceFingerprint. exec.
  destruct (fails env RandomBytes); simpl; [done|].
  by rewrite decide_False.
Qed.

Lemma signIn_google env email w :
  signIn env email (Some "google") w
  = let w1 := mkWorld (store w) (trace w ++ [RandomBytes]) in
    let w2 := mkWorld (store w) (trace w1 ++ [UserFindUnique]) in
    if fails env RandomBytes then (w1, Ok Deny)
    else if fails env UserFindUnique then (w2, Ok Deny)
    else match email with
         | None => (w2, Ok Deny)
         | Some e =>
             match list_find (userHasKey (ByEmail e)) (users (store w)) with
             | None => (w2, Ok Allow)
             | Some ir =>
                 caught (checkDeviceLimits env (withTenant (store w) ir) (entropy env) w2)
             end
         end.
Proof.
  unfold signIn, generateDeviceFingerprint, user_findUnique, caught. exec.
  destruct (fails env RandomBytes); simpl; [done|].
  destruct (fails env UserFindUnique); simpl; [done|].
  destruct email as [e|]; simpl; [|done].
  destruct (list_find _ _) as [ir|]; simpl; [|done].
  by destruct (checkDeviceLimits _ _ _ _) as [w' [r|]].
Qed.

(** The callback keeps the limit of every user, whatever fails. *)
Lemma signIn_preserves_limit env s email provider :
  withinLimit s → withinLimit (store (run (signIn env email provider) s).1).
Proof.
  intros Hinv. unfold run.
  destruct (decide (provider = Some "google")) as [->|Hp].
  2: { by rewrite signIn_not_google. }
  rewrite signIn_google. simpl.
  destruct (fails env RandomBytes); [done|].
  destruct (fails env UserFindUnique); [done|].
  destruct email as [e|]; [|done].
  destruct (list_find _ _) as [[uid row]|] eqn:Hfind; [|done].
  apply list_find_Some in Hfind as (Hrow & _).
  pose proof (checkDeviceLimits_cases env (withTenant s (uid, row)) (entropy env)
                (mkWorld s [RandomBytes; UserFindUnique])) as Hcases.
  unfold caught. simpl in *.
  destruct Hcases as [(_ & -> & _) | [(_ & _ & -> & _) | (Hlt & _ & -> & _)]].
  - done.
  - by apply withinLimit_refused.
  - by apply withinLimit_admitted.
Qed.

(** C7. If a call made by the [signIn] callback throws (the fingerprint
    draw, the user lookup with its tenant and plan, the session count, the
    pending-session create or the session create), the callback returns
    [false] and has written nothing; it does not return [true] or a redirect
    and does not throw itself.  The user lookup also throws, with the same
    result, when [user.email] is missing.  These are the only cases in which
    the callback returns [false]. *)
Theorem signIn_denies_on_failure env s email provider :
  let res := run (signIn env email provider) s in
  ((∃ op, op ∈ trace res.1 ∧ fails env op = true) →
   res.2 = Ok Deny ∧ store res.1 = s)
  ∧ (provider = Some "google" → email = None → res.2 = Ok Deny ∧ store res.1 = s)
  ∧ (res.2 = Ok Deny →
     (∃ op, op ∈ trace res.1 ∧ fails env op = true)
     ∨ (provider = Some "google" ∧ email = None)).
Proof.
  intros res. subst res. unfold run in *.
  destruct (decide (provider = Some "google")) as [->|Hp].
  2: { rewrite signIn_not_google by done. simpl. split_and!.
       - intros (op & ->%list_elem_of_singleton & Hop). by rewrite Hop.
       - done.
       - destruct (fails env RandomBytes) eqn:Hrb; [|done].
         intros _. left. failed_at RandomBytes. }
  rewrite signIn_google. simpl.
  destruct (fails env RandomBytes) eqn:Hrb.
  { split_and!; [done..|]. intros _. left. failed_at RandomBytes. }
  destruct (fails env UserFindUnique) eqn:Hfu.
  { split_and!; [done..|]. intros _. left. failed_at UserFindUnique. }
  destruct email as [e|]; [|split_and!; [done..|by right]].
  destruct (list_find _ _) as [ir|] eqn:Hfind.
  2: { split_and!; [|done..]. intros (op & Hin & Hop). simpl in Hin.
       rewrite !elem_of_cons in Hin.
       destruct Hin as [->| [->|Hin]]; [congruence..|]. by apply elem_of_nil in Hin. }
  pose proof (checkDeviceLimits_cases env (withTenant s ir) (entropy env)
                (mkWorld s [RandomBytes; UserFindUnique])) as Hcases.
  unfold caught. simpl in *.
  destruct Hcases as [(Hr & Hs & Hop & _)
                     | [(_ & Hr & _ & Ht & Hc & Hx) | (_ & Hr & _ & Ht & Hc & Hx)]];
    rewrite Hr.
  - split_and!; [done..|]. intros _. by left.
  - split_and!; [|done..]. intros (op & Hin & Hop).
    rewrite Ht in Hin. rewrite !elem_of_cons in Hin.
    destruct Hin as [->| [->| [->| [->|Hin]]]]; [congruence..|].
    by apply elem_of_nil in Hin.
  - split_and!; [|done..]. intros (op & Hin & Hop).
    rewrite Ht in Hin. rewrite !elem_of_cons in Hin.
    destruct Hin as [->| [->| [->| [->|Hin]]]]; [congruence..|].
    by apply elem_of_nil in Hin.
Qed.

Lemma signIn_denies_on_failure_witness :
  let env := mkEnv 1000 (Sample.onlyFails DeviceSessionCount) (2 ^ 1073) "a3f1" in
  let res := run (signIn env (Some "alice@example.com") (Some "google")) Sample.store0 in
  res.2 = Ok Deny ∧ store res.1 = Sample.store0.
Proof.
  apply (proj1 (signIn_denies_on_failure
                  (mkEnv 1000 (Sample.onlyFails DeviceSessionCount) (2 ^ 1073) "a3f1")
                  Sample.store0 (Some "alice@example.com") (Some "google"))).
  exists DeviceSessionCount. split; [|reflexivity].
  vm_compute. apply list_elem_of_In. simpl; auto.
Defined.

(** A Google sign-in of a known user, when every call succeeds. *)
Lemma signIn_google_known env s email uid row :
  (∀ op, fails env op = false) →
  list_find (userHasKey (ByEmail email)) (users s) = Some (uid, row) →
  let u := withTenant s (uid, row) in
  let res := run (signIn env (Some email) (Some "google")) s in
  gateInvoked res.1
  ∧ (if decide (Z.of_nat (countActive uid (deviceSessions s)) < maxDevicesOf u)
     then res.2 = Ok Allow ∧ store res.1 = admitted env u (entropy env) s
     else res.2 = Ok (RedirectTo "/auth/device-limit-exceeded")
          ∧ store res.1 = refused u (entropy env) s).
Proof.
  intros Hno Hfind u res. subst res. unfold run, gateInvoked.
  rewrite signIn_google. simpl. rewrite !Hno, Hfind. unfold caught.
  pose proof (checkDeviceLimits_cases env u (entropy env)
                (mkWorld s [RandomBytes; UserFindUnique])) as Hcases.
  simpl in Hcases. change (fu_id u) with uid in Hcases. fold u.
  destruct Hcases as [(_ & _ & _ & Hf) | [(Hge & Hr & Hs & Ht & _) | (Hlt & Hr & Hs & Ht & _)]].
  - by rewrite !Hno in Hf.
  - simpl. rewrite Ht, Hr, Hs. rewrite decide_False by lia.
    split; [|done]. rewrite !elem_of_cons; auto.
  - simpl. rewrite Ht, Hr, Hs. rewrite decide_True by lia.
    split; [|done]. rewrite !elem_of_cons; auto.
Qed.

(** C2, as the code has it.  When the calls of the [signIn] callback
    succeed: the callback runs the device-limit check exactly for a sign-in
    through the Google provider whose email belongs to a user of the table,
    and then admits or defers as the check decides; for every other provider,
    and for a Google sign-in whose email has no user yet, it returns [true]
    without counting sessions and writes nothing. *)
Theorem signIn_gate_only_for_known_google_user env s email provider :
  (∀ op, fails env op = false) →
  let res := run (signIn env email provider) s in
  (provider ≠ Some "google" →
     ¬ gateInvoked res.1 ∧ res.2 = Ok Allow ∧ store res.1 = s)
  ∧ (∀ e,
     provider = Some "google" → email = Some e →
     list_find (userHasKey (ByEmail e)) (users s) = None →
     ¬ gateInvoked res.1 ∧ res.2 = Ok Allow ∧ store res.1 = s)
  ∧ (∀ e uid row,
     provider = Some "google" → email = Some e →
     list_find (userHasKey (ByEmail e)) (users s) = Some (uid, row) →
     let u := withTenant s (uid, row) in
     gateInvoked res.1
     ∧ (if decide (Z.of_nat (countActive uid (deviceSessions s)) < maxDevicesOf u)
        then res.2 = Ok Allow ∧ store res.1 = admitted env u (entropy env) s
        else res.2 = Ok (RedirectTo "/auth/device-limit-exceeded")
             ∧ store res.1 = refused u (entropy env) s)).
Proof.
  intros Hno res. subst res. unfold run, gateInvoked. split_and!.
  - intros Hp. rewrite signIn_not_google by done. simpl. rewrite Hno.
    split_and!; [|done..]. by intros ?%list_elem_of_singleton.
  - intros e -> -> Hfind. rewrite signIn_google. simpl. rewrite !Hno, Hfind. simpl.
    split_and!; [|done..]. intros H. rewrite !elem_of_cons in H.
    destruct H as [?|[?|H]]; [done..|]. by apply elem_of_nil in H.
  - intros e uid row -> -> Hfind. by apply signIn_google_known.
Qed.

Lemma signIn_gate_only_for_known_google_user_witness :
  let res := run (signIn Sample.env0 (Some "alice@example.com") (Some "google")) Sample.store0 in
  gateInvoked res.1 ∧ res.2 = Ok Allow.
Proof.
  destruct (signIn_gate_only_for_known_google_user
              Sample.env0 Sample.store0 (Some "alice@example.com") (Some "google")
              (fun _ => eq_refl)) as (_ & _ & H).
  destruct (H "alice@example.com" 0%nat Sample.alice eq_refl eq_refl eq_refl) as [Hg Hd].
  exact (conj Hg (proj1 Hd)).
Defined.

(** C2 fails as stated.  Bob already has as many active sessions as his
    limit allows.  His sign-in through the email OTP provider is let in
    without the device-limit check, and so is a Google sign-in whose email
    has no user yet. *)
Lemma signIn_gate_skipped_counterexample :
  (let res := run (signIn Sample.env0 (Some "bob@example.com") (Some "email-otp"))
                  Sample.store0 in
   ¬ gateInvoked res.1 ∧ res.2 = Ok Allow ∧ store res.1 = Sample.store0)
  ∧ (let res := run (signIn Sample.env0 (Some "carol@example.com") (Some "google"))
                    Sample.store0 in
     ¬ gateInvoked res.1 ∧ res.2 = Ok Allow ∧ store res.1 = Sample.store0).
Proof.
  split; (split; [|split; reflexivity]); vm_compute;
    intros H; apply list_elem_of_In in H; simpl in H; intuition discriminate.
Qed.

(** With a plan whose [maxDevices] is not 0, the limit is the plan's. *)
Lemma maxDevicesOf_plan u t p :
  fu_tenant u = Some (t, Some p) → Plan.maxDevices p ≠ 0 →
  maxDevicesOf u = Plan.maxDevices p.
Proof.
  intros Ht Hp. unfold maxDevicesOf. rewrite Ht. simpl.
  by rewrite (proj2 (Z.eqb_neq _ _) Hp).
Qed.

Lemma lacksLimit_maxDevicesOf u : lacksLimit u → maxDevicesOf u = 1.
Proof.
  unfold maxDevicesOf.
  intros [-> | [(t & ->) | (t & p & -> & Hp)]]; simpl; [done..|].
  by rewrite Hp.
Qed.

(** C10. A user of the table whose tenant is absent, whose tenant has no
    plan, or whose plan has [maxDevices] 0 gets the limit 1 from
    [existingUser.tenant?.plan?.maxDevices || 1].  When the calls succeed, a
    Google sign-in of such a user with no active session is admitted and
    leaves one active session, the sign-in after it is deferred, and so is
    every sign-in of such a user who already has an active session. *)
Theorem default_device_limit_is_one env env' s email uid row :
  (∀ op, fails env op = false) →
  (∀ op, fails env' op = false) →
  list_find (userHasKey (ByEmail email)) (users s) = Some (uid, row) →
  let u := withTenant s (uid, row) in
  lacksLimit u →
  let res := run (signIn env (Some email) (Some "google")) s in
  let res' := run (signIn env' (Some email) (Some "google")) (store res.1) in
  maxDevicesOf u = 1
  ∧ (countActive uid (deviceSessions s) = 0%nat →
       res.2 = Ok Allow
       ∧ store res.1 = admitted env u (entropy env) s
       ∧ countActive uid (deviceSessions (store res.1)) = 1%nat
       ∧ res'.2 = Ok (RedirectTo "/auth/device-limit-exceeded")
       ∧ store res'.1 = refused u (entropy env') (store res.1))
  ∧ (countActive uid (deviceSessions s) ≠ 0%nat →
       res.2 = Ok (RedirectTo "/auth/device-limit-exceeded")
       ∧ store res.1 = refused u (entropy env) s).
Proof.
  intros Hno Hno' Hfind u Hlack res res'.
  pose proof (lacksLimit_maxDevicesOf u Hlack) as Hmax.
  destruct (signIn_google_known env s email uid row Hno Hfind) as [_ Hres].
  fold u res in Hres. rewrite Hmax in Hres.
  split; [done|]. split.
  - intros Hzero. rewrite Hzero in Hres. rewrite decide_True in Hres by lia.
    destruct Hres as [Hr Hs].
    assert (countActive uid (deviceSessions (store res.1)) = 1%nat) as Hone.
    { rewrite Hs. unfold admitted; simpl. change (fu_id u) with uid.
      by rewrite countActive_app, countActive_new_active, decide_True, Hzero. }
    split_and!; [done..| |].
    all: destruct (signIn_google_known env' (store res.1) email uid row Hno') as [_ Hres'];
      [by rewrite Hs|].
    all: fold res' in Hres'.
    all: rewrite (withTenant_ext s (store res.1)) in Hres' by (by rewrite Hs).
    all: fold u in Hres'; rewrite Hmax, Hone in Hres'.
    all: rewrite decide_False in Hres' by lia.
    all: by destruct Hres'.
  - intros Hpos. rewrite decide_False in Hres by lia. done.
Qed.

Lemma default_device_limit_is_one_witness :
  let s := set_deviceSessions Sample.store0 [] in
  let res := run (signIn Sample.env0 (Some "bob@example.com") (Some "google")) s in
  let res' := run (signIn Sample.env0 (Some "bob@example.com") (Some "google")) (store res.1) in
  maxDevicesOf Sample.bobFound = 1
  ∧ res.2 = Ok Allow
  ∧ res'.2 = Ok (RedirectTo "/auth/device-limit-exceeded")
  ∧ (run (signIn Sample.env0 (Some "bob@example.com") (Some "google")) Sample.store0).2
    = Ok (RedirectTo "/auth/device-limit-exceeded").
Proof.
  intros s res res'.
  destruct (default_device_limit_is_one Sample.env0 Sample.env0 s "bob@example.com"
              1%nat Sample.bob (fun _ => eq_refl) (fun _ => eq_refl) eq_refl
              (or_introl eq_refl)) as (Hmax & Hfirst & _).
  destruct (Hfirst eq_refl) as (Hr & _ & _ & Hr' & _).
  destruct (default_device_limit_is_one Sample.env0 Sample.env0 Sample.store0
              "bob@example.com" 1%nat Sample.bob (fun _ => eq_refl) (fun _ => eq_refl)
              eq_refl (or_introl eq_refl)) as (_ & _ & Hmore).
  destruct (Hmore ltac:(vm_compute; discriminate)) as [Hr0 _].
  exact (conj Hmax (conj Hr (conj Hr' Hr0))).
Defined.

(** ** Sign-out and the audit log *)

Lemma deactivate_active uid t d :
  isActiveOf uid d →
  deactivate uid t d
  = DeviceSession.mk (DeviceSession.userId d) (DeviceSession.fingerprint d)
      (DeviceSession.deviceType d) (DeviceSession.userAgent d)
      (DeviceSession.ipAddress d) false t.
Proof. intros H. unfold deactivate. by rewrite decide_True. Qed.

Lemma deactivate_other uid t d : ¬ isActiveOf uid d → deactivate uid t d = d.
Proof. intros H. unfold deactivate. by rewrite decide_False. Qed.

Lemma countActive_deactivate uid uid' t l :
  countActive uid' (deactivate uid t <$> l)
  = if decide (uid' = uid) then 0%nat else countActive uid' l.
Proof.
  unfold countActive. induction l as [|d l IH]; csimpl.
  { by case_decide. }
  rewrite !filter_cons.
  destruct (decide (isActiveOf uid d)) as [[Hu Ha]|Hn].
  - rewrite (deactivate_active uid t d) by done.
    rewrite decide_False by (unfold isActiveOf; simpl; by intros [_ ?]).
    rewrite IH. destruct (decide (uid' = uid)) as [->|Hne]; [done|].
    rewrite decide_False; [done|]. unfold isActiveOf. intros [? _]. congruence.
  - rewrite (deactivate_other uid t d) by done.
    destruct (decide (isActiveOf uid' d)) as [[Hu' Ha']|Hn']; simpl; rewrite IH;
      destruct (decide (uid' = uid)) as [->|Hne]; try done.
    exfalso. by apply Hn.
Qed.

(** C5. The [signOut] event for a token that carries a user id, when its
    two calls succeed: every active device session of that user becomes
    inactive with [lastSeen] set to the current time and its other columns
    kept, so the user is left with no active session; the sessions of other
    users, and the user's sessions that were already inactive, are unchanged;
    one [USER_SIGNOUT] audit entry for the user is appended; no other table
    changes. *)
Theorem signOut_deactivates_user_sessions env s uid tenantId :
  fails env DeviceSessionUpdateMany = false →
  fails env AuditLogCreate = false →
  let res := run (signOut_event env (Some uid) tenantId) s in
  let after := deviceSessions (store res.1) in
  res.2 = Ok tt
  ∧ length after = length (deviceSessions s)
  ∧ (∀ i d, deviceSessions s !! i = Some d →
       (DeviceSession.userId d = uid → DeviceSession.active d = true →
          after !! i
          = Some (DeviceSession.mk uid (DeviceSession.fingerprint d)
                    (DeviceSession.deviceType d) (DeviceSession.userAgent d)
                    (DeviceSession.ipAddress d) false (now env)))
       ∧ (DeviceSession.userId d ≠ uid ∨ DeviceSession.active d = false →
          after !! i = Some d))
  ∧ countActive uid after = 0%nat
  ∧ (∀ uid', uid' ≠ uid →
       countActive uid' after = countActive uid' (deviceSessions s))
  ∧ auditLogs (store res.1)
    = auditLogs s ++ [AuditLog.mk uid tenantId USER_SIGNOUT None None (now env)]
  ∧ users (store res.1) = users s
  ∧ pendingDeviceSessions (store res.1) = pendingDeviceSessions s
  ∧ otpVerifications (store res.1) = otpVerifications s.
Proof.
  intros Hu Ha res after. subst after res.
  unfold signOut_event, deviceSession_updateMany, auditLog_create. exec.
  rewrite Hu. simpl. rewrite Ha. simpl.
  split_and!; try done.
  - by rewrite length_fmap.
  - intros i d Hd. rewrite list_lookup_fmap, Hd. simpl. unfold deactivate. split.
    + intros Hid Hact. rewrite decide_True by done. by rewrite Hid.
    + intros Hnot. rewrite decide_False; [done|]. intros [? ?].
      destruct Hnot; congruence.
  - by rewrite countActive_deactivate, decide_True.
  - intros uid' Hne. by rewrite countActive_deactivate, decide_False.
Qed.

Lemma signOut_deactivates_user_sessions_witness :
  let res := run (signOut_event Sample.env0 (Some 0%nat) (Some 0%nat)) Sample.store0 in
  res.2 = Ok tt
  ∧ countActive 0%nat (deviceSessions (store res.1)) = 0%nat
  ∧ countActive 1%nat (deviceSessions (store res.1)) = 1%nat.
Proof.
  destruct (signOut_deactivates_user_sessions Sample.env0 Sample.store0 0%nat (Some 0%nat)
              eq_refl eq_refl) as (Hr & _ & _ & Hzero & Hother & _).
  exact (conj Hr (conj Hzero (Hother 1%nat ltac:(discriminate)))).
Defined.




(** ** OTP codes *)

(** *** Rounding to binary64 *)

Lemma roundHalfEven_bounds X s :
  X / 2 ^ s ≤ roundHalfEven X s ≤ X / 2 ^ s + 1.
Proof. unfold roundHalfEven. repeat case_match; lia. Qed.

Lemma roundHalfEven_mono X Y s :
  0 ≤ s → X ≤ Y → roundHalfEven X s ≤ roundHalfEven Y s.
Proof.
  intros Hs Hle.
  assert (0 < 2 ^ s) as Hp by (apply Z.pow_pos_nonneg; lia).
  pose proof (Z.div_le_mono X Y (2 ^ s) Hp Hle) as Hq.
  destruct (decide (X / 2 ^ s = Y / 2 ^ s)) as [Heq|Hne].
  - pose proof (Z.div_mod X (2 ^ s) ltac:(lia)) as HX.
    pose proof (Z.div_mod Y (2 ^ s) ltac:(lia)) as HY.
    assert (X mod 2 ^ s ≤ Y mod 2 ^ s) as Hr by (rewrite Heq in HX; lia).
    unfold roundHalfEven. rewrite Heq.
    repeat case_match; lia.
  - pose proof (roundHalfEven_bounds X s). pose proof (roundHalfEven_bounds Y s). lia.
Qed.

Lemma dropBits_mono X Y : X ≤ Y → dropBits X ≤ dropBits Y.
Proof.
  intros Hle. unfold dropBits. pose proof (Z.log2_le_mono X Y Hle). lia.
Qed.

Lemma dropBits_nonneg X : 0 ≤ dropBits X.
Proof. unfold dropBits. lia. Qed.

(** A rounded number stays in the binade of the number, ends included. *)
Lemma round64_upper X : 0 ≤ X → round64 X ≤ 2 ^ (53 + dropBits X).
Proof.
  intros H0. unfold round64.
  pose proof (dropBits_nonneg X) as Hs.
  assert (0 < 2 ^ dropBits X) as Hp by (apply Z.pow_pos_nonneg; lia).
  rewrite Z.pow_add_r by lia.
  apply Z.mul_le_mono_nonneg_r; [lia|].
  pose proof (roundHalfEven_bounds X (dropBits X)) as [_ Hub].
  assert (X / 2 ^ dropBits X < 2 ^ 53); [|lia].
  apply Z.div_lt_upper_bound; [lia|].
  rewrite <- Z.pow_add_r by lia.
  destruct (decide (X = 0)) as [->|Hne]; [apply Z.pow_pos_nonneg; lia|].
  pose proof (Z.log2_spec X ltac:(lia)) as [_ Hlt].
  eapply Z.lt_le_trans; [exact Hlt|].
  apply Z.pow_le_mono_r; [lia|]. unfold dropBits. lia.
Qed.

Lemma round64_lower X : 0 < dropBits X → 2 ^ (52 + dropBits X) ≤ round64 X.
Proof.
  intros Hs. unfold round64.
  assert (0 < 2 ^ dropBits X) as Hp by (apply Z.pow_pos_nonneg; lia).
  rewrite Z.pow_add_r by lia.
  apply Z.mul_le_mono_nonneg_r; [lia|].
  pose proof (roundHalfEven_bounds X (dropBits X)) as [Hlb _].
  assert (2 ^ 52 ≤ X / 2 ^ dropBits X); [|lia].
  apply Z.div_le_lower_bound; [lia|].
  rewrite Z.mul_comm, <- Z.pow_add_r by lia.
  assert (52 + dropBits X = Z.log2 X) as -> by (unfold dropBits in *; lia).
  assert (0 < X) as HX.
  { destruct (Z.lt_trichotomy 0 X) as [?|[<-|?]]; [done|..].
    - unfold dropBits in Hs. simpl in Hs. lia.
    - unfold dropBits in Hs. rewrite Z.log2_nonpos in Hs by lia. lia. }
  by apply Z.log2_spec.
Qed.

Lemma round64_mono X Y : 0 ≤ X → X ≤ Y → round64 X ≤ round64 Y.
Proof.
  intros H0 Hle.
  pose proof (dropBits_mono X Y Hle) as Hs.
  pose proof (dropBits_nonneg X) as HsX.
  destruct (decide (dropBits X = dropBits Y)) as [Heq|Hne].
  - unfold round64. rewrite Heq.
    apply Z.mul_le_mono_nonneg_r; [apply Z.pow_nonneg; lia|].
    apply roundHalfEven_mono; lia.
  - etrans; [apply round64_upper; lia|].
    etrans; [|apply round64_lower; lia].
    apply Z.pow_le_mono_r; lia.
Qed.

(** The largest binary64 below 1 is 1 - 2^-53. *)
Lemma isBinary64_below_one R :
  isBinary64 R → R < fixedOne → R ≤ fixedOne - 2 ^ 1021.
Proof.
  intros [H0 Hr] Hlt. unfold fixedOne in *.
  destruct (decide (R < 2 ^ 1073)) as [Hsmall|Hbig].
  { assert (2 ^ 1074 = 2 * 2 ^ 1073) as -> by (by rewrite <- Z.pow_succ_r).
    assert (2 ^ 1073 = 2 ^ 52 * 2 ^ 1021) as Hsplit by (by rewrite <- Z.pow_add_r).
    assert (0 < 2 ^ 1021) by (by apply Z.pow_pos_nonneg). nia. }
  assert (Z.log2 R = 1073) as Hlog.
  { apply Z.log2_unique; [lia|]. split; [lia|]. exact Hlt. }
  unfold round64, dropBits in Hr. rewrite Hlog in Hr.
  change (Z.max 0 (1073 - 52)) with 1021 in Hr.
  assert (2 ^ 1074 = 2 ^ 53 * 2 ^ 1021) as Hsplit by (by rewrite <- Z.pow_add_r).
  assert (0 < 2 ^ 1021) as Hp by (by apply Z.pow_pos_nonneg).
  set (c := 2 ^ 1021) in *. set (k := roundHalfEven R 1021) in *.
  rewrite Hsplit in *.
  assert (k < 2 ^ 53) by nia. nia.
Qed.

(** *** The number of the code *)

Lemma otpNumber_range R :
  isBinary64 R → R < fixedOne → 100000 ≤ otpNumber R ≤ 999999.
Proof.
  intros HR Hlt. pose proof (isBinary64_below_one R HR Hlt) as Hmax.
  destruct HR as [H0 _].
  unfold otpNumber. cbn zeta.
  set (P := round64 (R * 900000)).
  assert (0 ≤ P ≤ 900000 * fixedOne - 2 ^ 1041) as [HP0 HP1].
  { split.
    - change 0 with (round64 0). apply round64_mono; lia.
    - replace (900000 * fixedOne - 2 ^ 1041)
        with (round64 ((fixedOne - 2 ^ 1021) * 900000)) by (by vm_compute).
      apply round64_mono; lia. }
  set (S := round64 (100000 * fixedOne + P)).
  assert (100000 * fixedOne ≤ S ≤ 1000000 * fixedOne - 2 ^ 1041) as [HS0 HS1].
  { split.
    - replace (100000 * fixedOne) with (round64 (100000 * fixedOne)) at 1 by (by vm_compute).
      apply round64_mono; unfold fixedOne; lia.
    - replace (1000000 * fixedOne - 2 ^ 1041)
        with (round64 (100000 * fixedOne + (900000 * fixedOne - 2 ^ 1041)))
        by (by vm_compute).
      apply round64_mono; unfold fixedOne in *; lia. }
  assert (0 < fixedOne) as Hone by done.
  assert (0 < 2 ^ 1041) by done.
  split.
  - apply Z.div_le_lower_bound; lia.
  - assert (S / fixedOne < 1000000); [|lia].
    apply Z.div_lt_upper_bound; lia.
Qed.

(** The ends of the range are reached: draw 0 gives 100000 and the largest
    draw below 1, 1 - 2^-53, gives 999999. *)
Example otpNumber_extremes :
  otpNumber 0 = 100000 ∧ otpNumber (fixedOne - 2 ^ 1021) = 999999.
Proof. by vm_compute. Qed.

(** In exact arithmetic the range is the same, for every rational draw. *)
Lemma otpNumberExact_range r :
  (0 <= r)%Q → (r < 1)%Q → 100000 ≤ otpNumberExact r ≤ 999999.
Proof.
  intros H0 H1. unfold otpNumberExact. split.
  - change 100000 with (Qfloor (inject_Z 100000)) at 1.
    apply Qfloor_resp_le. change (inject_Z 100000) with 100000%Q. lra.
  - cut (Qfloor (100000 + r * 900000) < 1000000); [lia|].
    rewrite Zlt_Qlt.
    eapply Qle_lt_trans; [apply Qfloor_le|].
    change (inject_Z 1000000) with 1000000%Q. lra.
Qed.

(** *** The code as a string *)

Lemma digitChar_isDigit d : 0 ≤ d ≤ 9 → isDigit (digitChar d) = true.
Proof.
  intros H.
  assert (d = 0 ∨ d = 1 ∨ d = 2 ∨ d = 3 ∨ d = 4 ∨ d = 5 ∨ d = 6 ∨ d = 7 ∨ d = 8 ∨ d = 9)
    as Hd by lia.
  repeat (destruct Hd as [->|Hd]; [reflexivity|]). by subst.
Qed.

Lemma digitsOf_more fuel n acc :
  10 ≤ n →
  digitsOf (S fuel) n acc = digitsOf fuel (n / 10) (String (digitChar (n mod 10)) acc).
Proof. intros H. cbn [digitsOf]. by rewrite (proj2 (Z.ltb_ge n 10)). Qed.

Lemma digitsOf_last fuel n acc :
  n < 10 → digitsOf (S fuel) n acc = String (digitChar (n mod 10)) acc.
Proof. intros H. cbn [digitsOf]. by rewrite (proj2 (Z.ltb_lt n 10)). Qed.

Lemma toString_six n :
  100000 ≤ n ≤ 999999 →
  toString n
  = String (digitChar (n / 10 / 10 / 10 / 10 / 10 mod 10))
      (String (digitChar (n / 10 / 10 / 10 / 10 mod 10))
         (String (digitChar (n / 10 / 10 / 10 mod 10))
            (String (digitChar (n / 10 / 10 mod 10))
               (String (digitChar (n / 10 mod 10))
                  (String (digitChar (n mod 10)) ""))))).
Proof.
  intros Hn. unfold toString. rewrite (proj2 (Z.ltb_ge n 0)) by lia.
  assert (16 ≤ Z.log2 n) as Hlog.
  { change 16 with (Z.log2 65536). apply Z.log2_le_mono. lia. }
  remember (Z.to_nat (Z.log2 n)) as k eqn:Hk.
  assert (5 ≤ k)%nat as Hk5 by lia.
  do 5 (destruct k as [|k]; [lia|]).
  rewrite !digitsOf_more by (Z.div_mod_to_equations; lia).
  rewrite digitsOf_last by (Z.div_mod_to_equations; lia).
  reflexivity.
Qed.

Lemma toString_sixDigits n : 100000 ≤ n ≤ 999999 → sixDigits (toString n).
Proof.
  intros Hn. rewrite toString_six by done. split; [done|].
  cbn [allDigits].
  rewrite !digitChar_isDigit; [done|..];
    match goal with |- 0 ≤ ?x mod 10 ≤ 9 => pose proof (Z.mod_pos_bound x 10); lia end.
Qed.

Lemma digitValue_digitChar d : 0 ≤ d ≤ 9 → digitValue (digitChar d) = d.
Proof.
  intros H.
  assert (d = 0 ∨ d = 1 ∨ d = 2 ∨ d = 3 ∨ d = 4 ∨ d = 5 ∨ d = 6 ∨ d = 7 ∨ d = 8 ∨ d = 9)
    as Hd by lia.
  repeat (destruct Hd as [->|Hd]; [reflexivity|]). by subst.
Qed.

Lemma readDecimal_toString_six n :
  100000 ≤ n ≤ 999999 → readDecimal (toString n) = n.
Proof.
  intros Hn. rewrite toString_six by done.
  unfold readDecimal. cbn [readDecimalFrom].
  rewrite !digitValue_digitChar;
    try match goal with
        | |- 0 ≤ ?x mod 10 ≤ 9 => pose proof (Z.mod_pos_bound x 10); lia
        end.
  Z.div_mod_to_equations. lia.
Qed.

(** C9. For every binary64 draw of [Math.random()] in [0, 1), the number
    [Math.floor(100000 + draw * 900000)] lies in [100000, 999999] and the
    code, its [toString], is the string of six decimal digits that denotes
    it.  [sendEmailOTP] and [sendSMSOTP] create at most one OTP record (none
    if the create throws); the record they create carries that code, the
    recipient, its type, [verified = false] and [expiresAt] equal to the
    current time plus 600000 ms, ten minutes. *)
Theorem otp_dispatch_code_and_expiry env s email phone :
  isBinary64 (random env) →
  random env < fixedOne →
  let n := otpNumber (random env) in
  let code := toString n in
  let expiresAt := now env + 600000 in
  100000 ≤ n ≤ 999999
  ∧ sixDigits code
  ∧ readDecimal code = n
  ∧ otpVerifications (store (run (sendEmailOTP env email) s).1)
    = (if fails env OTPCreate then otpVerifications s
       else otpVerifications s
            ++ [OTPVerification.mk (Some email) None code EMAIL expiresAt false])
  ∧ otpVerifications (store (run (sendSMSOTP env phone) s).1)
    = (if fails env OTPCreate then otpVerifications s
       else otpVerifications s
            ++ [OTPVerification.mk None (Some phone) code SMS expiresAt false]).
Proof.
  intros H0 H1 n code expiresAt.
  pose proof (otpNumber_range (random env) H0 H1) as Hn. fold n in Hn.
  split_and!; [lia | lia | by apply toString_sixDigits
              | by apply readDecimal_toString_six | |].
  - unfold sendEmailOTP, otp_create. exec.
    by destruct (fails env OTPCreate).
  - unfold sendSMSOTP, otp_create, twilio_messages_create. exec.
    destruct (fails env OTPCreate); simpl; [done|].
    by destruct (fails env TwilioMessagesCreate).
Qed.

Lemma otp_dispatch_code_and_expiry_witness :
  let s := Sample.store0 in
  otpVerifications (store (run (sendEmailOTP Sample.env0 "alice@example.com") s).1)
  = [OTPVerification.mk (Some "alice@example.com") None "550000" EMAIL 601000 false]
  ∧ otpVerifications (store (run (sendSMSOTP Sample.env0 "+15551234567") s).1)
    = [OTPVerification.mk None (Some "+15551234567") "550000" SMS 601000 false].
Proof.
  destruct (otp_dispatch_code_and_expiry Sample.env0 Sample.store0
              "alice@example.com" "+15551234567"
              ltac:(split; [vm_compute; discriminate | vm_compute; reflexivity])
              ltac:(vm_compute; reflexivity))
    as (_ & _ & _ & He & Hs).
  exact (conj He Hs).
Defined.

(** ** Running [authorize] *)

(** [authorize] is its two halves run back to back. *)
Lemma authorize_split ch env credentials w :
  authorize ch env credentials w
  = (p <- authorize_begin ch env credentials ;; authorize_resume ch env p) w.
Proof.
  unfold authorize, authorize_begin, authorize_resume.
  destruct (negb (truthy (identifier credentials)) || negb (truthy (otp credentials)));
    [done|].
  unfold authorize_find, otp_findFirst. exec.
  by destruct (fails env OTPFindFirst).
Qed.

Lemma authorize_begin_run ch env ident code w :
  truthy (Some ident) = true →
  truthy (Some code) = true →
  authorize_begin ch env (mkCredentials (Some ident) (Some code)) w
  = let w1 := mkWorld (store w) (trace w ++ [OTPFindFirst]) in
    if fails env OTPFindFirst then (w1, Ok (Returned None))
    else (w1, Ok (AwaitedFind ident
                    (list_find (otpWhere (keyOf ch ident) code (otpTypeOf ch) (now env))
                               (otpVerifications (store w))))).
Proof.
  intros Hi Hc. unfold authorize_begin. cbn [identifier otp].
  rewrite Hi, Hc. cbn [negb orb default]. simpl.
  unfold authorize_find, otp_findFirst. exec.
  by destruct (fails env OTPFindFirst).
Qed.

Lemma authorize_resume_none ch env ident w :
  authorize_resume ch env (AwaitedFind ident None) w = (w, Ok None).
Proof. done. Qed.

Lemma authorize_resume_run ch env ident id r0 w :
  authorize_resume ch env (AwaitedFind ident (Some (id, r0))) w
  = let s := store w in
    let w2 := mkWorld s (trace w ++ [OTPUpdate]) in
    if fails env OTPUpdate then (w2, Ok None)
    else match otpVerifications s !! id with
         | None => (w2, Ok None)
         | Some r =>
             let s1 := set_otpVerifications s (<[id := markVerified r]> (otpVerifications s)) in
             let w3 := mkWorld s1 (trace w2 ++ [UserFindUnique]) in
             if fails env UserFindUnique then (w3, Ok None)
             else match list_find (userHasKey (keyOf ch ident)) (users s) with
                  | Some ir => (w3, Ok (Some (toAuthUser (withTenant s1 ir))))
                  | None =>
                      let u := newUser ch ident (now env) in
                      let w4 := mkWorld s1 (trace w3 ++ [UserCreate]) in
                      if fails env UserCreate then (w4, Ok None)
                      else if uniqueClash (users s) u then (w4, Ok None)
                      else
                        let s2 := set_users s1 (users s ++ [u]) in
                        (mkWorld s2 (trace w4),
                         Ok (Some (toAuthUser (withTenant s2 (length (users s), u)))))
                  end
         end.
Proof.
  unfold authorize_resume, authorize_consume, otp_update_verified, user_findUnique,
    user_create. exec.
  destruct (fails env OTPUpdate); simpl; [done|].
  destruct (otpVerifications (store w) !! id) as [r|]; simpl; [|done].
  destruct (fails env UserFindUnique); simpl; [done|].
  destruct (list_find _ _) as [ir|]; simpl; [done|].
  destruct (fails env UserCreate); simpl; [done|].
  by destruct (uniqueClash _ _).
Qed.

Lemma uniqueClash_newUser ch ident t l :
  list_find (userHasKey (keyOf ch ident)) l = None →
  uniqueClash l (newUser ch ident t) = false.
Proof.
  intros Hnone. unfold uniqueClash.
  destruct ch; simpl in *; rewrite Hnone; rewrite bool_decide_eq_false_2;
    first [done | by intros [? ?]].
Qed.

Lemma list_find_new_user ch ident t l :
  list_find (userHasKey (keyOf ch ident)) l = None →
  list_find (userHasKey (keyOf ch ident)) (l ++ [newUser ch ident t])
  = Some (length l, newUser ch ident t).
Proof.
  intros Hnone. apply list_find_app_Some. right. split_and!; [lia|done|].
  replace (length l - length l)%nat with 0%nat by lia.
  simpl. rewrite decide_True; [done|]. by destruct ch.
Qed.

(** The outcomes of one [authorize] call, whatever fails. *)
Lemma authorize_cases ch env ident code s :
  let res := run (authorize ch env (mkCredentials (Some ident) (Some code))) s in
  let k := keyOf ch ident in
  (res.2 = Ok None ∧ store res.1 = s)
  ∨ (∃ id r,
       list_find (otpWhere k code (otpTypeOf ch) (now env)) (otpVerifications s)
       = Some (id, r)
       ∧ ((res.2 = Ok None ∧ store res.1 = consumed id r s)
          ∨ (∃ ir, list_find (userHasKey k) (users s) = Some ir
                   ∧ res.2 = Ok (Some (toAuthUser (withTenant (consumed id r s) ir)))
                   ∧ store res.1 = consumed id r s)
          ∨ (list_find (userHasKey k) (users s) = None
             ∧ res.2 = Ok (Some (toAuthUser
                                   (withTenant (registered ch env ident (consumed id r s))
                                               (length (users s), newUser ch ident (now env)))))
             ∧ store res.1 = registered ch env ident (consumed id r s)))).
Proof.
  intros res k. subst res. unfold run. rewrite authorize_split.
  destruct (truthy (Some ident)) eqn:Hi.
  2: { left. unfold bind, authorize_begin. cbn [identifier otp]. by rewrite Hi. }
  destruct (truthy (Some code)) eqn:Hc.
  2: { left. unfold bind, authorize_begin. cbn [identifier otp]. rewrite Hi, Hc. done. }
  unfold bind. rewrite authorize_begin_run by done. cbn zeta. cbn [store trace].
  destruct (fails env OTPFindFirst); [simpl; by left|].
  destruct (list_find _ _) as [[id r]|] eqn:Hfind; [|simpl; by left].
  rewrite authorize_resume_run. cbn zeta. cbn [store trace].
  destruct (fails env OTPUpdate); [simpl; by left|].
  pose proof Hfind as (Hlook & _ & _)%list_find_Some. rewrite Hlook.
  right. exists id, r. split; [done|].
  destruct (fails env UserFindUnique); [simpl; by left|].
  fold k. destruct (list_find (userHasKey k) (users s)) as [ir|] eqn:Hu.
  { right; left. by exists ir. }
  destruct (fails env UserCreate); [simpl; by left|].
  unfold k in Hu. rewrite (uniqueClash_newUser ch ident (now env) _ Hu).
  right; right. done.
Qed.

(** ** Expired and used codes *)

Lemma otpWhere_candidate ch ident code t r :
  otpWhere (keyOf ch ident) code (otpTypeOf ch) t r
  ↔ candidate ch ident code r ∧ t < OTPVerification.expiresAt r.
Proof. unfold otpWhere, candidate. tauto. Qed.

(** C4. An attempt made when every unverified record that carries the
    submitted identifier, code and type has reached its [expiresAt]
    ([expiresAt <= now]) returns [null] and changes no table, whichever code
    is submitted and whatever call fails.  In every case, a record that has
    reached its [expiresAt] is left as it was by the attempt, and an attempt
    that returns a user has consumed a record whose [expiresAt] is still
    ahead. *)
Theorem expired_otp_is_refused ch env s ident code :
  let res := run (authorize ch env (mkCredentials (Some ident) (Some code))) s in
  ((∀ r, r ∈ otpVerifications s → candidate ch ident code r →
         OTPVerification.expiresAt r ≤ now env) →
   res.2 = Ok None ∧ store res.1 = s)
  ∧ (∀ i r, otpVerifications s !! i = Some r →
            OTPVerification.expiresAt r ≤ now env →
            otpVerifications (store res.1) !! i = Some r)
  ∧ (∀ u, res.2 = Ok (Some u) →
          ∃ id r, otpVerifications s !! id = Some r
                  ∧ candidate ch ident code r
                  ∧ now env < OTPVerification.expiresAt r
                  ∧ otpVerifications (store res.1) !! id = Some (markVerified r)).
Proof.
  intros res.
  destruct (authorize_cases ch env ident code s) as [[Hr Hs] | (id & r & Hfind & Hcases)];
    fold res in Hr, Hs || fold res in Hcases.
  { split_and!; [done| |by rewrite Hr]. intros i r Hi _. by rewrite Hs. }
  apply list_find_Some in Hfind as (Hlook & Hwhere & _).
  apply otpWhere_candidate in Hwhere as [Hcand Hlive].
  assert (otpVerifications (store res.1)
          = <[id := markVerified r]> (otpVerifications s)) as Hotps.
  { destruct Hcases as [[_ ->] | [(ir & _ & _ & ->) | (_ & _ & ->)]]; done. }
  split_and!.
  - intros Hexp. specialize (Hexp r (list_elem_of_lookup_2 _ _ _ Hlook) Hcand). lia.
  - intros i r' Hi Hexp.
    assert (i ≠ id) as Hne by (intros ->; simplify_eq; lia).
    by rewrite Hotps, list_lookup_insert_ne.
  - intros u _. exists id, r. split_and!; [done..|].
    rewrite Hotps. apply list_lookup_insert_eq. by eapply lookup_lt_Some.
Qed.

Lemma expired_otp_is_refused_witness :
  let s := set_otpVerifications Sample.store0
             [OTPVerification.mk None (Some "+15551234567") "482913" SMS 1000 false] in
  let res := run (authorize PhoneOtp Sample.env0
                    (mkCredentials (Some "+15551234567") (Some "482913"))) s in
  (res.2 = Ok None ∧ store res.1 = s)
  ∧ otpVerifications (store res.1) !! 0%nat
    = Some (OTPVerification.mk None (Some "+15551234567") "482913" SMS 1000 false).
Proof.
  intros s.
  destruct (expired_otp_is_refused PhoneOtp Sample.env0 s "+15551234567" "482913")
    as (Hrefused & Hkept & _).
  split.
  - apply Hrefused.
    intros r Hr _. apply list_elem_of_singleton in Hr as ->. simpl. lia.
  - apply Hkept; [reflexivity | simpl; lia].
Defined.

(** After a successful call the user of the credential is in the table. *)
Lemma authorize_success_user ch env ident code s w u :
  run (authorize ch env (mkCredentials (Some ident) (Some code))) s = (w, Ok (Some u)) →
  ∃ id r,
    list_find (otpWhere (keyOf ch ident) code (otpTypeOf ch) (now env)) (otpVerifications s)
    = Some (id, r)
    ∧ otpVerifications (store w) = <[id := markVerified r]> (otpVerifications s)
    ∧ is_Some (list_find (userHasKey (keyOf ch ident)) (users (store w)))
    ∧ (users (store w) = users s
       ∨ users (store w) = users s ++ [newUser ch ident (now env)]).
Proof.
  intros Hrun.
  destruct (authorize_cases ch env ident code s) as [[Hr _] | (id & r & Hfind & Hcases)];
    rewrite Hrun in *; simpl in *; [done|].
  exists id, r. split; [done|].
  destruct Hcases as [[Hr _] | [(ir & Hu & _ & ->) | (Hu & _ & ->)]]; [done| |].
  - simpl. rewrite Hu. eauto.
  - simpl. rewrite (list_find_new_user ch ident (now env) _ Hu). eauto.
Qed.

(** A call never creates a user when the user of the credential exists. *)
Lemma authorize_known_user ch env ident code s :
  is_Some (list_find (userHasKey (keyOf ch ident)) (users s)) →
  users (store (run (authorize ch env (mkCredentials (Some ident) (Some code))) s).1)
  = users s.
Proof.
  intros [ir Hir].
  destruct (authorize_cases ch env ident code s) as [[_ ->] | (id & r & _ & Hcases)];
    [done|].
  destruct Hcases as [[_ ->] | [(? & _ & _ & ->) | (Hu & _)]]; [done..|congruence].
Qed.



Lemma toAuthUser_withTenant s s' ir :
  toAuthUser (withTenant s ir) = toAuthUser (withTenant s' ir).
Proof. done. Qed.

(** The second half of a request when every call succeeds: it marks the
    row it was handed, whatever the row's [verified] column says by then. *)
Lemma authorize_resume_ok ch env ident id r0 w r :
  (∀ op, fails env op = false) →
  otpVerifications (store w) !! id = Some r →
  let res := authorize_resume ch env (AwaitedFind ident (Some (id, r0))) w in
  ∃ ir,
    res.2 = Ok (Some (toAuthUser (withTenant (store w) ir)))
    ∧ list_find (userHasKey (keyOf ch ident)) (users (store res.1)) = Some ir
    ∧ otpVerifications (store res.1) = <[id := markVerified r]> (otpVerifications (store w))
    ∧ (∀ ir0, list_find (userHasKey (keyOf ch ident)) (users (store w)) = Some ir0 →
              ir = ir0).
Proof.
  intros Hno Hlook res. subst res. rewrite authorize_resume_run. cbn zeta.
  rewrite !Hno, Hlook.
  destruct (list_find _ (users (store w))) as [ir|] eqn:Hu.
  - exists ir. simpl. rewrite Hu. split_and!; try done. by intros ? [= <-].
  - rewrite (uniqueClash_newUser ch ident (now env) _ Hu).
    exists (length (users (store w)), newUser ch ident (now env)). simpl.
    rewrite (list_find_new_user ch ident (now env) _ Hu). by split_and!.
Qed.

(** A call with a live code succeeds when every call it makes does. *)
Lemma authorize_ok ch env s ident code :
  (∀ op, fails env op = false) →
  truthy (Some ident) = true →
  truthy (Some code) = true →
  is_Some (list_find (otpWhere (keyOf ch ident) code (otpTypeOf ch) (now env))
                     (otpVerifications s)) →
  ∃ u, (run (authorize ch env (mkCredentials (Some ident) (Some code))) s).2 = Ok (Some u).
Proof.
  intros Hno Hi Hc [[id r] Hfind]. unfold run. rewrite authorize_split.
  unfold bind. rewrite authorize_begin_run by done. cbn zeta. cbn [store trace].
  rewrite Hno, Hfind.
  pose proof Hfind as (Hlook & _)%list_find_Some.
  destruct (authorize_resume_ok ch env ident id r
              (mkWorld s ([] ++ [OTPFindFirst])) r Hno Hlook) as (ir & Hr & _).
  eauto.
Qed.

(** Once the record a call consumed is marked, no record is left for a later
    call when every other candidate has reached its [expiresAt] by then. *)
Lemma no_live_candidate_after_consume ch ident code t' s id r :
  otpVerifications s !! id = Some r →
  (∀ j rj, otpVerifications s !! j = Some rj → j ≠ id →
           candidate ch ident code rj → OTPVerification.expiresAt rj ≤ t') →
  list_find (otpWhere (keyOf ch ident) code (otpTypeOf ch) t')
            (<[id := markVerified r]> (otpVerifications s)) = None.
Proof.
  intros Hlook Hexp.
  apply list_find_None, Forall_forall. intros r' Hin [Hcand' Hlive]%otpWhere_candidate.
  apply list_elem_of_lookup in Hin as [j Hj].
  destruct (decide (j = id)) as [->|Hne].
  - rewrite list_lookup_insert_eq in Hj by (by eapply lookup_lt_Some).
    injection Hj as <-. by destruct Hcand' as (_ & _ & _ & ?).
  - rewrite list_lookup_insert_ne in Hj by done.
    specialize (Hexp _ _ Hj Hne Hcand'). lia.
Qed.

(** A call that returned a user was given an identifier and a code. *)
Lemma authorize_success_truthy ch env ident code s w u :
  run (authorize ch env (mkCredentials (Some ident) (Some code))) s = (w, Ok (Some u)) →
  truthy (Some ident) = true ∧ truthy (Some code) = true.
Proof.
  unfold run. rewrite authorize_split. intros Hrun.
  destruct (truthy (Some ident)) eqn:Hi.
  2: { unfold bind, authorize_begin in Hrun. cbn [identifier otp] in Hrun.
       by rewrite Hi in Hrun. }
  destruct (truthy (Some code)) eqn:Hc; [done|].
  unfold bind, authorize_begin in Hrun. cbn [identifier otp] in Hrun.
  by rewrite Hi, Hc in Hrun.
Qed.

(** C3.  After an [authorize] call has succeeded with an identifier and a
    code, the record it consumed is verified, and a later call with the same
    identifier and code never accepts that record again and creates no user,
    whatever fails in that call.  The later call returns [null] and changes
    no table when every other unverified record with that identifier, code
    and type has reached its [expiresAt] by then: when the records the
    attempt can match are the used one and expired ones.  A later call that
    does return a user has consumed a different record, one that was never
    verified and whose [expiresAt] is still ahead; and when every call
    succeeds, that is the only way for the later call not to return
    [null]. *)
Theorem used_otp_is_refused ch env env' s ident code w u :
  run (authorize ch env (mkCredentials (Some ident) (Some code))) s = (w, Ok (Some u)) →
  let res' := run (authorize ch env' (mkCredentials (Some ident) (Some code))) (store w) in
  ∃ id r,
    list_find (otpWhere (keyOf ch ident) code (otpTypeOf ch) (now env)) (otpVerifications s)
    = Some (id, r)
    ∧ otpVerifications (store w) = <[id := markVerified r]> (otpVerifications s)
    ∧ otpVerifications (store res'.1) !! id = Some (markVerified r)
    ∧ users (store res'.1) = users (store w)
    ∧ ((∀ j rj, otpVerifications s !! j = Some rj → j ≠ id →
                candidate ch ident code rj → OTPVerification.expiresAt rj ≤ now env') →
       res'.2 = Ok None ∧ store res'.1 = store w)
    ∧ (∀ u', res'.2 = Ok (Some u') →
         ∃ id' r', id' ≠ id
                   ∧ otpVerifications s !! id' = Some r'
                   ∧ candidate ch ident code r'
                   ∧ now env' < OTPVerification.expiresAt r'
                   ∧ otpVerifications (store res'.1) !! id' = Some (markVerified r'))
    ∧ ((∀ op, fails env' op = false) →
       (∃ j rj, otpVerifications s !! j = Some rj ∧ j ≠ id
                ∧ candidate ch ident code rj ∧ now env' < OTPVerification.expiresAt rj) →
       ∃ u', res'.2 = Ok (Some u')).
Proof.
  intros Hrun res'.
  destruct (authorize_success_user _ _ _ _ _ _ _ Hrun) as (id & r & Hfind & Hotps & Hu & _).
  destruct (authorize_success_truthy _ _ _ _ _ _ _ Hrun) as [Hi Hc].
  pose proof Hfind as (Hlook & _ & _)%list_find_Some.
  assert (otpVerifications (store w) !! id = Some (markVerified r)) as Hid.
  { rewrite Hotps. apply list_lookup_insert_eq. by eapply lookup_lt_Some. }
  assert ((res'.2 = Ok None ∧ store res'.1 = store w)
          ∨ ∃ id' r', id' ≠ id
              ∧ otpVerifications s !! id' = Some r'
              ∧ candidate ch ident code r'
              ∧ now env' < OTPVerification.expiresAt r'
              ∧ otpVerifications (store res'.1)
                = <[id' := markVerified r']> (otpVerifications (store w))) as Hcases'.
  { destruct (authorize_cases ch env' ident code (store w))
      as [Hnull | (id' & r' & Hfind' & Hcases)];
      fold res' in Hnull || fold res' in Hcases; [by left|].
    right. exists id', r'.
    apply list_find_Some in Hfind' as (Hlook' & Hwhere' & _).
    assert (id' ≠ id) as Hne.
    { intros ->. rewrite Hid in Hlook'. injection Hlook' as <-.
      by destruct Hwhere' as (_ & _ & _ & _ & ?). }
    apply otpWhere_candidate in Hwhere' as [Hcand' Hlive'].
    rewrite Hotps, list_lookup_insert_ne in Hlook' by done.
    split_and!; [done..|].
    destruct Hcases as [[_ ->] | [(ir & _ & _ & ->) | (_ & _ & ->)]]; done. }
  exists id, r. split_and!; [done|done| | | | |].
  - destruct Hcases' as [[_ ->] | (id' & r' & Hne & _ & _ & _ & ->)]; [done|].
    by rewrite list_lookup_insert_ne.
  - by apply authorize_known_user.
  - intros Hexp.
    destruct Hcases' as [Hnull | (id' & r' & Hne & Hlook' & Hcand' & Hlive' & _)]; [done|].
    specialize (Hexp _ _ Hlook' Hne Hcand'). lia.
  - intros u' Hu'.
    destruct Hcases' as [[Hnull _] | (id' & r' & Hne & Hlook' & Hcand' & Hlive' & Hotps')];
      [congruence|].
    exists id', r'. split_and!; [done..|].
    rewrite Hotps'. apply list_lookup_insert_eq.
    rewrite Hotps, length_insert. by eapply lookup_lt_Some.
  - intros Hno (j & rj & Hj & Hne & Hcand & Hlive).
    apply (authorize_ok ch env' (store w) ident code Hno Hi Hc).
    apply (list_find_elem_of _ _ rj).
    + apply (list_elem_of_lookup_2 _ j). by rewrite Hotps, list_lookup_insert_ne.
    + by apply otpWhere_candidate.
Qed.

(** Code 482913 is issued for Bob's phone to expire at minute 10; an older
    record with the same code expires at minute 2.5.  The call at minute 2
    consumes the first record; at minute 3 the older record has expired and
    the call with the same phone and code is refused. *)
Lemma used_otp_is_refused_witness :
  let older := OTPVerification.mk None (Some "+15551234567") "482913" SMS 150000 false in
  let s := set_otpVerifications Sample.store0 [Sample.otpBob; older] in
  let res := run (authorize PhoneOtp (Sample.envAt 120000) Sample.credsBob) s in
  let res' := run (authorize PhoneOtp (Sample.envAt 180000) Sample.credsBob) (store res.1) in
  res.2 = Ok (Some Sample.bobAuth)
  ∧ OTPVerification.verified <$> otpVerifications (store res.1) = [true; false]
  ∧ res'.2 = Ok None
  ∧ store res'.1 = store res.1.
Proof.
  intros older s res res'. split; [reflexivity|]. split; [reflexivity|].
  destruct (used_otp_is_refused PhoneOtp (Sample.envAt 120000) (Sample.envAt 180000) s
              "+15551234567" "482913" res.1 Sample.bobAuth eq_refl)
    as (id & r & Hfind & _ & _ & _ & Hrefused & _).
  apply Hrefused. intros j rj Hj Hne _.
  injection Hfind as <- _.
  destruct j as [|[|j]]; [done| |done].
  injection Hj as <-. simpl. lia.
Defined.

(** The same code on two live records.  [sendSMSOTP] is called twice for
    Bob's phone and draws the same number both times.  The [authorize] call
    at minute 2 consumes the first record; the call at minute 3 with the same
    phone and code finds the second record, which was never verified, and
    returns the user. *)
Example scenario_same_code_on_two_records :
  let phone := "+15551234567" in
  let s1 := store (run (sendSMSOTP (Sample.envAt 0) phone) Sample.store0).1 in
  let s2 := store (run (sendSMSOTP (Sample.envAt 1000) phone) s1).1 in
  let creds := mkCredentials (Some phone) (Some "550000") in
  let res := run (authorize PhoneOtp (Sample.envAt 120000) creds) s2 in
  let res' := run (authorize PhoneOtp (Sample.envAt 180000) creds) (store res.1) in
  OTPVerification.code <$> otpVerifications s2 = ["550000"; "550000"]
  ∧ res.2 = Ok (Some Sample.bobAuth)
  ∧ OTPVerification.verified <$> otpVerifications (store res.1) = [true; false]
  ∧ res'.2 = Ok (Some Sample.bobAuth)
  ∧ OTPVerification.verified <$> otpVerifications (store res'.1) = [true; true].
Proof. vm_compute. by split_and!. Qed.

(** ** Interleaved requests *)




(** ** The scenarios of the specification, run on the model *)

(** Alice has a plan of three devices and two active sessions.  Her third
    device is admitted and her count becomes 3; the sign-in after it is
    deferred, a pending session is recorded and the count stays 3. *)
Example scenario_third_device_admitted_fourth_deferred :
  let third := run (signIn (Sample.envAt 1000) (Some "alice@example.com") (Some "google"))
                   Sample.store0 in
  let fourth := run (signIn (Sample.envAt 2000) (Some "alice@example.com") (Some "google"))
                    (store third.1) in
  third.2 = Ok Allow
  ∧ countActive 0%nat (deviceSessions (store third.1)) = 3%nat
  ∧ fourth.2 = Ok (RedirectTo "/auth/device-limit-exceeded")
  ∧ countActive 0%nat (deviceSessions (store fourth.1)) = 3%nat
  ∧ length (pendingDeviceSessions (store fourth.1)) = 1%nat.
Proof. vm_compute. by split_and!. Qed.

(** A code issued with [expiresAt] at minute 10 and presented at minute 11
    is refused, with the right code as with a wrong one. *)
Example scenario_expired_code :
  let right := run (authorize PhoneOtp (Sample.envAt 660000) Sample.credsBob)
                   Sample.storeOtp in
  let wrong := run (authorize PhoneOtp (Sample.envAt 660000)
                      (mkCredentials (Some "+15551234567") (Some "000000")))
                   Sample.storeOtp in
  right.2 = Ok None ∧ store right.1 = Sample.storeOtp
  ∧ wrong.2 = Ok None ∧ store wrong.1 = Sample.storeOtp.
Proof. vm_compute. by split_and!. Qed.

(** A sign-out deactivates every active session of the user, not only the
    one of the device that signs out. *)
Example scenario_sign_out_all_devices :
  let res := run (signOut_event (Sample.envAt 5000) (Some 0%nat) (Some 0%nat)) Sample.store0 in
  DeviceSession.active <$> deviceSessions (store res.1) = [false; true; false; false]
  ∧ DeviceSession.lastSeen <$> deviceSessions (store res.1) = [5000; 0; 5000; 0].
Proof. vm_compute. by split_and!. Qed.

(** * More of the code *)

(** ** The [jwt] and [session] callbacks *)

Lemma jwt_run env token user w :
  jwt env token user w
  = let token1 :=
      match user with
      | Some u => assignClaims token (Some (au_role u)) (au_tenantId u)
                    (au_phone u) (au_phoneVerified u)
      | None => token
      end in
    if truthy (t_email token) then
      let w1 := mkWorld (store w) (trace w ++ [UserFindUnique]) in
      if fails env UserFindUnique then (w1, Ok token1)
      else match t_email token with
           | Some e =>
               match list_find (userHasKey (ByEmail e)) (users (store w)) with
               | Some ir =>
                   (w1, Ok (assignClaims token (Some (User.role ir.2)) (User.tenantId ir.2)
                              (User.phone ir.2) (User.phoneVerified ir.2)))
               | None => (w1, Ok token1)
               end
           | None => (w1, Ok token1)
           end
    else (w, Ok token1).
Proof.
  unfold jwt, user_findUnique. exec.
  assert (t_email (match user with
                   | Some u => assignClaims token (Some (au_role u)) (au_tenantId u)
                                 (au_phone u) (au_phoneVerified u)
                   | None => token
                   end) = t_email token) as -> by (by destruct user).
  destruct (truthy (t_email token)); [|done].
  destruct (fails env UserFindUnique); simpl; [done|].
  destruct (t_email token) as [e|]; simpl; [|done].
  destruct (list_find _ _) as [[uid row]|]; simpl; [|done].
  by destruct user.
Qed.

(** X1. The [jwt] callback never throws and never writes, whatever the data
    layer does, and it leaves [token.sub] and [token.email] as they were. *)
Theorem jwt_never_throws_or_writes env token user s :
  let res := run (jwt env token user) s in
  ∃ token', res.2 = Ok token'
            ∧ store res.1 = s
            ∧ t_sub token' = t_sub token
            ∧ t_email token' = t_email token.
Proof.
  intros res. subst res. unfold run. rewrite jwt_run. cbn zeta.
  destruct (truthy (t_email token)).
  - destruct (fails env UserFindUnique); [destruct user; eauto|].
    destruct (t_email token) as [e|] eqn:He; [|destruct user; eauto].
    destruct (list_find _ _); [eauto|destruct user; eauto].
  - destruct user; eauto.
Qed.

(** X2. When the token carries an email, the lookup answers and a user with
    that email is in the table, the token leaves the [jwt] callback with the
    role, tenant, phone and phone verification of that row: the row wins over
    what the [user] argument said. *)
Theorem jwt_refreshes_from_the_table env token user s e uid row :
  fails env UserFindUnique = false →
  t_email token = Some e →
  e ≠ "" →
  list_find (userHasKey (ByEmail e)) (users s) = Some (uid, row) →
  (run (jwt env token user) s).2
  = Ok (mkToken (t_sub token) (Some e) (Some (User.role row)) (User.tenantId row)
                (User.phone row) (User.phoneVerified row)).
Proof.
  intros Hno He Hne Hfind. unfold run. rewrite jwt_run. cbn zeta.
  rewrite He. cbn [truthy].
  rewrite (proj2 (String.eqb_neq e "") Hne). cbn [negb store].
  rewrite Hno, Hfind. unfold assignClaims. by rewrite He.
Qed.

Lemma jwt_refreshes_from_the_table_witness :
  (run (jwt Sample.env0
          (mkToken (Some 0%nat) (Some "alice@example.com") None None None None) None)
       Sample.store0).2
  = Ok (mkToken (Some 0%nat) (Some "alice@example.com") (Some CUSTOMER) (Some 0%nat) None None).
Proof.
  exact (jwt_refreshes_from_the_table Sample.env0
           (mkToken (Some 0%nat) (Some "alice@example.com") None None None None) None
           Sample.store0 "alice@example.com" 0%nat Sample.alice
           eq_refl eq_refl ltac:(discriminate) eq_refl).
Defined.

(** X3. When the token has no email, the lookup throws, or no user has the
    email, the token leaves the [jwt] callback with the four fields of the
    [user] argument if there is one and unchanged otherwise: a failed refresh
    never clears a role or a tenant. *)
Theorem jwt_keeps_claims_without_refresh env token user s :
  truthy (t_email token) = false
  ∨ fails env UserFindUnique = true
  ∨ (∀ e, t_email token = Some e →
          list_find (userHasKey (ByEmail e)) (users s) = None) →
  (run (jwt env token user) s).2
  = Ok (match user with
        | Some u => mkToken (t_sub token) (t_email token) (Some (au_role u))
                      (au_tenantId u) (au_phone u) (au_phoneVerified u)
        | None => token
        end).
Proof.
  intros Hcase. unfold run. rewrite jwt_run. cbn zeta. unfold assignClaims.
  destruct (truthy (t_email token)) eqn:Ht; [|done].
  destruct (fails env UserFindUnique) eqn:Hf; [done|].
  destruct Hcase as [?|[?|Hnone]]; [done..|].
  destruct (t_email token) as [e|]; [|done].
  cbn [store]. by rewrite (Hnone e eq_refl).
Qed.

Lemma jwt_keeps_claims_without_refresh_witness :
  let env := mkEnv 1000 (Sample.onlyFails UserFindUnique) (2 ^ 1073) "a3f1" in
  let token := mkToken (Some 1%nat) (Some "bob@example.com") (Some CUSTOMER) None None None in
  (run (jwt env token None) Sample.store0).2 = Ok token
  ∧ (run (jwt Sample.env0 token (Some Sample.bobAuth)) (set_users Sample.store0 [])).2
    = Ok (mkToken (Some 1%nat) (Some "bob@example.com") (Some CUSTOMER) None
                  (Some "+15551234567") (Some 0)).
Proof.
  split.
  - exact (jwt_keeps_claims_without_refresh
             (mkEnv 1000 (Sample.onlyFails UserFindUnique) (2 ^ 1073) "a3f1")
             (mkToken (Some 1%nat) (Some "bob@example.com") (Some CUSTOMER) None None None)
             None Sample.store0 (or_intror (or_introl eq_refl))).
  - exact (jwt_keeps_claims_without_refresh Sample.env0
             (mkToken (Some 1%nat) (Some "bob@example.com") (Some CUSTOMER) None None None)
             (Some Sample.bobAuth) (set_users Sample.store0 [])
             (or_intror (or_intror (fun _ _ => eq_refl)))).
Defined.

(** X4. The session built from a refreshed token: with a [session.user],
    an email on the token and its user in the table, [session] after [jwt]
    shows [token.sub] as the id and the role, tenant, phone and phone
    verification of the table row, and keeps the name, email and image of the
    session; without a [session.user] the session is returned as it came. *)
Theorem session_shows_the_table_row env token user s sess e uid row :
  fails env UserFindUnique = false →
  t_email token = Some e →
  e ≠ "" →
  list_find (userHasKey (ByEmail e)) (users s) = Some (uid, row) →
  ∃ token',
    (run (jwt env token user) s).2 = Ok token'
    ∧ match s_user sess with
      | Some su =>
          session_callback sess token'
          = mkSession (Some (mkSessionUser (su_name su) (su_email su) (su_image su)
                               (t_sub token) (Some (User.role row)) (User.tenantId row)
                               (User.phone row) (User.phoneVerified row)))
                      (s_expires sess)
      | None => session_callback sess token' = sess
      end.
Proof.
  intros Hno He Hne Hfind.
  pose proof (jwt_run env token user (mkWorld s [])) as Hrun. cbn zeta in Hrun.
  rewrite He in Hrun. cbn [truthy] in Hrun.
  rewrite (proj2 (String.eqb_neq e "") Hne) in Hrun. cbn [negb store] in Hrun.
  rewrite Hno, Hfind in Hrun.
  eexists. split; [unfold run; by rewrite Hrun|].
  unfold session_callback. by destruct (s_user sess).
Qed.

Lemma session_shows_the_table_row_witness :
  ∃ token',
    (run (jwt Sample.env0
            (mkToken (Some 0%nat) (Some "alice@example.com") None None None None) None)
         Sample.store0).2 = Ok token'
    ∧ session_callback
        (mkSession (Some (mkSessionUser (Some "Alice") (Some "alice@example.com") None
                            None None None None None)) "2026-12-01") token'
      = mkSession (Some (mkSessionUser (Some "Alice") (Some "alice@example.com") None
                           (Some 0%nat) (Some CUSTOMER) (Some 0%nat) None None))
                  "2026-12-01".
Proof.
  exact (session_shows_the_table_row Sample.env0
           (mkToken (Some 0%nat) (Some "alice@example.com") None None None None) None
           Sample.store0
           (mkSession (Some (mkSessionUser (Some "Alice") (Some "alice@example.com") None
                               None None None None None)) "2026-12-01")
           "alice@example.com" 0%nat Sample.alice
           eq_refl eq_refl ltac:(discriminate) eq_refl).
Defined.

(** ** The [redirect] callback *)

Lemma append_String c p b : String c p +:+ b = String c (p +:+ b).
Proof. reflexivity. Qed.

Lemma append_empty b : "" +:+ b = b.
Proof. reflexivity. Qed.

Lemma startsWith_spec p s : startsWith p s = true ↔ ∃ b, s = p +:+ b.
Proof.
  revert s. induction p as [|a p IH]; intros s; simpl.
  { split; [eauto|done]. }
  destruct s as [|c s]; simpl.
  { split; [done|]. intros [b Hb]. by rewrite append_String in Hb. }
  destruct (Ascii.eqb_spec a c) as [->|Hne].
  - rewrite IH. split; intros [b Hb]; exists b; rewrite append_String in *; congruence.
  - split; [done|]. intros [b Hb]. rewrite append_String in Hb. congruence.
Qed.

Lemma startsWith_append p s : startsWith p (p +:+ s) = true.
Proof. apply startsWith_spec. eauto. Qed.

Lemma includes_spec p s : includes p s = true ↔ ∃ a b, s = a +:+ p +:+ b.
Proof.
  induction s as [|c s IH]; simpl.
  - destruct (startsWith p "") eqn:Hp.
    + split; [|done]. intros _. apply startsWith_spec in Hp as [b Hb].
      exists "", b. by rewrite append_empty.
    + split; [done|]. intros (a & b & Hab).
      destruct a; [|by rewrite append_String in Hab]. rewrite append_empty in Hab.
      assert (startsWith p "" = true) by (apply startsWith_spec; eauto). congruence.
  - destruct (startsWith p (String c s)) eqn:Hp.
    + split; [|done]. intros _. apply startsWith_spec in Hp as [b Hb].
      exists "", b. by rewrite append_empty.
    + rewrite IH. split.
      * intros (a & b & ->). exists (String c a), b. by rewrite append_String.
      * intros (a & b & Hab). destruct a as [|c' a].
        { rewrite append_empty in Hab.
          assert (startsWith p (String c s) = true) by (apply startsWith_spec; eauto).
          congruence. }
        rewrite append_String in Hab. injection Hab as -> ->. eauto.
Qed.

(** A redirect returned by the [signIn] callback is the limit page. *)
Lemma signIn_redirect_url env s email provider url :
  (run (signIn env email provider) s).2 = Ok (RedirectTo url) →
  url = "/auth/device-limit-exceeded".
Proof.
  unfold run. destruct (decide (provider = Some "google")) as [->|Hp].
  2: { rewrite signIn_not_google by done. simpl. by destruct (fails env RandomBytes). }
  rewrite signIn_google. simpl.
  destruct (fails env RandomBytes); [done|].
  destruct (fails env UserFindUnique); [done|].
  destruct email as [e|]; [|done].
  destruct (list_find _ _) as [ir|]; [|done].
  pose proof (checkDeviceLimits_cases env (withTenant s ir) (entropy env)
                (mkWorld s [RandomBytes; UserFindUnique])) as Hcases.
  unfold caught. simpl in *.
  destruct Hcases as [(-> & _) | [(_ & -> & _) | (_ & -> & _)]]; simpl; congruence.
Qed.

(** X5. Every URL that contains [device-limit-exceeded], wherever and on
    whatever site, is redirected to the limit page of the application; so
    is every redirect the [signIn] callback returns. *)
Theorem redirect_to_limit_page originOf baseUrl :
  (∀ a b, redirect originOf (a +:+ "device-limit-exceeded" +:+ b) baseUrl
          = Some (baseUrl +:+ "/auth/device-limit-exceeded"))
  ∧ (∀ env s email provider url,
       (run (signIn env email provider) s).2 = Ok (RedirectTo url) →
       redirect originOf url baseUrl = Some (baseUrl +:+ "/auth/device-limit-exceeded")).
Proof.
  assert (∀ a b, redirect originOf (a +:+ "device-limit-exceeded" +:+ b) baseUrl
                 = Some (baseUrl +:+ "/auth/device-limit-exceeded")) as Hmark.
  { intros a b. unfold redirect.
    by rewrite (proj2 (includes_spec "device-limit-exceeded" _)) by eauto. }
  split; [done|].
  intros env s email provider url ->%signIn_redirect_url.
  exact (Hmark "/auth/" "").
Qed.

Lemma redirect_to_limit_page_witness :
  redirect (fun _ => None) "/auth/device-limit-exceeded" "https://app.example"
  = Some "https://app.example/auth/device-limit-exceeded".
Proof.
  exact (proj2 (redirect_to_limit_page (fun _ => None) "https://app.example")
           Sample.env0 Sample.store0 (Some "bob@example.com") (Some "google")
           "/auth/device-limit-exceeded" eq_refl).
Defined.

(** X6. The [redirect] callback stays on the site: a URL it returns begins
    with [baseUrl], or is the URL it was given and that URL has the origin
    [baseUrl].  It throws only for a URL that does not begin with a slash and
    that [new URL] rejects. *)
Theorem redirect_stays_on_site originOf url baseUrl :
  (∀ r, redirect originOf url baseUrl = Some r →
        startsWith baseUrl r = true ∨ (r = url ∧ originOf url = Some baseUrl))
  ∧ (redirect originOf url baseUrl = None →
     originOf url = None ∧ startsWith "/" url = false
     ∧ includes "device-limit-exceeded" url = false ∧ url ≠ baseUrl).
Proof.
  unfold redirect. split.
  - intros r.
    destruct (includes _ url); [intros [= <-]; left; apply startsWith_append|].
    destruct (String.eqb_spec url baseUrl) as [->|Hne];
      [intros [= <-]; left; apply startsWith_append|].
    destruct (startsWith "/" url); [intros [= <-]; left; apply startsWith_append|].
    destruct (originOf url) as [o|]; [|done].
    destruct (String.eqb_spec o baseUrl) as [->|Hne'].
    + intros [= <-]. by right.
    + intros [= <-]. left. apply startsWith_spec. exists "".
      clear. induction baseUrl as [|c u IH]; [done|].
      rewrite append_String. congruence.
  - destruct (includes _ url); [done|].
    destruct (String.eqb_spec url baseUrl) as [->|Hne]; [done|].
    destruct (startsWith "/" url); [done|].
    destruct (originOf url) as [o|]; [|done].
    by destruct (String.eqb o baseUrl).
Qed.

Lemma redirect_stays_on_site_witness :
  startsWith "https://app.example"
    (default "" (redirect (fun _ => Some "https://evil.example")
                          "https://evil.example/steal" "https://app.example")) = true
  ∧ redirect (fun _ => None) "not a url" "https://app.example" = None.
Proof.
  split.
  - destruct (proj1 (redirect_stays_on_site (fun _ => Some "https://evil.example")
                       "https://evil.example/steal" "https://app.example")
                "https://app.example" eq_refl) as [H|[H _]]; [exact H|discriminate H].
  - reflexivity.
Defined.

(** ** More on [authorize] *)

(** The user a successful call returns is a row of the table. *)
Lemma authorize_success_row ch env ident code s w u :
  run (authorize ch env (mkCredentials (Some ident) (Some code))) s = (w, Ok (Some u)) →
  ∃ row, users (store w) !! au_id u = Some row
         ∧ userHasKey (keyOf ch ident) row
         ∧ u = toAuthUser (mkFoundUser (au_id u) row None).
Proof.
  intros Hrun.
  destruct (authorize_cases ch env ident code s) as [[Hr _] | (id & r & _ & Hcases)];
    rewrite Hrun in *; simpl in *; [done|].
  destruct Hcases as [[Hr _] | [([uid row] & Hu & [= ->] & ->) | (Hu & [= ->] & ->)]];
    [done| |].
  - apply list_find_Some in Hu as (Hlook & Hkey & _). exists row. by split_and!.
  - exists (newUser ch ident (now env)). simpl. split_and!; [|by destruct ch|done].
    by apply list_lookup_middle.
Qed.

Lemma truthy_Some x : truthy x = true ↔ ∃ v, x = Some v ∧ v ≠ "".
Proof.
  destruct x as [v|]; simpl.
  - destruct (String.eqb_spec v "") as [->|Hne]; simpl.
    + split; [done|]. by intros (? & [= <-] & ?).
    + split; [eauto|done].
  - split; [done|]. by intros (? & ? & _).
Qed.

(** Without an identifier or without a code, [authorize] asks nothing. *)
Lemma authorize_falsy ch env credentials w :
  truthy (identifier credentials) && truthy (otp credentials) = false →
  authorize ch env credentials w = (w, Ok None).
Proof.
  intros H. unfold authorize.
  destruct (truthy (identifier credentials)), (truthy (otp credentials)); done.
Qed.

(** X7. When every call succeeds, [authorize] returns a user exactly when
    the identifier and the code are both present and non-empty and the table
    holds an unverified record with that identifier, code and type whose
    [expiresAt] is still ahead; in every other case it returns [null]. *)
Theorem authorize_accepts_live_codes ch env s credentials :
  (∀ op, fails env op = false) →
  let res := run (authorize ch env credentials) s in
  ((∃ u, res.2 = Ok (Some u))
   ↔ ∃ ident code,
       identifier credentials = Some ident ∧ otp credentials = Some code
       ∧ ident ≠ "" ∧ code ≠ ""
       ∧ ∃ r, r ∈ otpVerifications s ∧ candidate ch ident code r
              ∧ now env < OTPVerification.expiresAt r)
  ∧ (res.2 = Ok None ∨ ∃ u, res.2 = Ok (Some u)).
Proof.
  intros Hno res. subst res.
  destruct (truthy (identifier credentials) && truthy (otp credentials)) eqn:Ht.
  2: { unfold run. rewrite authorize_falsy by done. simpl.
       split; [|by left]. split; [by intros [u Hu]|].
       intros (ident & code & Hi & Hc & Hin & Hcn & _).
       assert (truthy (identifier credentials) = true) by (apply truthy_Some; eauto).
       assert (truthy (otp credentials) = true) by (apply truthy_Some; eauto).
       destruct (truthy (identifier credentials)), (truthy (otp credentials)); done. }
  apply andb_true_iff in Ht as [Hti Htc].
  pose proof Hti as (ident & Hi & Hine)%truthy_Some.
  pose proof Htc as (code & Hc & Hcne)%truthy_Some.
  destruct credentials as [oi oc]. simpl in *. subst oi oc.
  destruct (list_find (otpWhere (keyOf ch ident) code (otpTypeOf ch) (now env))
                      (otpVerifications s)) as [[id r]|] eqn:Hfind.
  - destruct (authorize_ok ch env s ident code Hno Hti Htc) as [u Hu]; [by rewrite Hfind|].
    split; [|eauto]. split; [|eauto]. intros _. exists ident, code. split_and!; try done.
    apply list_find_Some in Hfind as (Hlook & [Hcand Hlive]%otpWhere_candidate & _).
    exists r. split_and!; try done. by eapply list_elem_of_lookup_2.
  - destruct (authorize_cases ch env ident code s) as [[Hr _] | (id & r & Hfind' & _)];
      [|congruence].
    split; [|by left]. split.
    + intros [u Hu]. simpl in *. congruence.
    + intros (? & ? & [= <-] & [= <-] & _ & _ & r & Hin & Hcand & Hlive).
      apply list_find_None in Hfind. rewrite Forall_forall in Hfind.
      exfalso. apply (Hfind r Hin). by apply otpWhere_candidate.
Qed.

Lemma authorize_accepts_live_codes_witness :
  (∃ u, (run (authorize PhoneOtp (Sample.envAt 120000) Sample.credsBob) Sample.storeOtp).2
        = Ok (Some u))
  ∧ ¬ (∃ u, (run (authorize PhoneOtp (Sample.envAt 120000)
                     (mkCredentials (Some "+15551234567") None)) Sample.storeOtp).2
            = Ok (Some u)).
Proof.
  split.
  - apply (proj1 (authorize_accepts_live_codes PhoneOtp (Sample.envAt 120000)
                    Sample.storeOtp Sample.credsBob (fun _ => eq_refl))).
    exists "+15551234567", "482913". split_and!; try done.
    exists Sample.otpBob.
    split; [apply list_elem_of_here | split; [done | simpl; lia]].
  - intros H.
    apply (proj1 (authorize_accepts_live_codes PhoneOtp (Sample.envAt 120000)
                    Sample.storeOtp (mkCredentials (Some "+15551234567") None)
                    (fun _ => eq_refl))) in H.
    by destruct H as (? & ? & _ & ? & _).
Defined.

(** X8. Whatever fails, one [authorize] call never throws and changes at
    most one thing in the OTP table: the [verified] flag of one unverified,
    unexpired record with the submitted identifier, code and type, from
    [false] to [true].  It adds and removes no OTP record and touches no
    device session, pending session, audit entry, tenant or plan. *)
Theorem authorize_marks_at_most_one_record ch env s ident code :
  let res := run (authorize ch env (mkCredentials (Some ident) (Some code))) s in
  let after := store res.1 in
  (∃ r, res.2 = Ok r)
  ∧ (otpVerifications after = otpVerifications s
     ∨ ∃ id r, otpVerifications s !! id = Some r
               ∧ candidate ch ident code r
               ∧ now env < OTPVerification.expiresAt r
               ∧ otpVerifications after = <[id := markVerified r]> (otpVerifications s))
  ∧ length (otpVerifications after) = length (otpVerifications s)
  ∧ deviceSessions after = deviceSessions s
  ∧ pendingDeviceSessions after = pendingDeviceSessions s
  ∧ auditLogs after = auditLogs s
  ∧ tenants after = tenants s
  ∧ plans after = plans s.
Proof.
  intros res after. subst after.
  destruct (authorize_cases ch env ident code s) as [[Hr Hs] | (id & r & Hfind & Hcases)];
    fold res in Hr, Hs || fold res in Hcases.
  { rewrite Hs. split_and!; eauto. }
  apply list_find_Some in Hfind as (Hlook & [Hcand Hlive]%otpWhere_candidate & _).
  assert (otpVerifications (store res.1)
          = <[id := markVerified r]> (otpVerifications s)) as Hotps.
  { destruct Hcases as [[_ ->] | [(ir & _ & _ & ->) | (_ & _ & ->)]]; done. }
  split_and!.
  - destruct Hcases as [[-> _] | [(ir & _ & -> & _) | (_ & -> & _)]]; eauto.
  - right. exists id, r. by split_and!.
  - by rewrite Hotps, length_insert.
  - destruct Hcases as [[_ ->] | [(ir & _ & _ & ->) | (_ & _ & ->)]]; done.
  - destruct Hcases as [[_ ->] | [(ir & _ & _ & ->) | (_ & _ & ->)]]; done.
  - destruct Hcases as [[_ ->] | [(ir & _ & _ & ->) | (_ & _ & ->)]]; done.
  - destruct Hcases as [[_ ->] | [(ir & _ & _ & ->) | (_ & _ & ->)]]; done.
  - destruct Hcases as [[_ ->] | [(ir & _ & _ & ->) | (_ & _ & ->)]]; done.
Qed.

(** X9. Find-or-create.  One [authorize] call leaves the user table as it
    was or appends one user, and it appends only when no user had the
    identifier: the new user has the identifier in the column of the
    provider, that column's verification time set to now, the role
    [CUSTOMER] and no tenant.  A user the call returns is the row of the
    table with the identifier, and if no two users shared an email or a phone
    before the call, none do after it. *)
Theorem authorize_finds_or_creates_one_user ch env s ident code :
  let res := run (authorize ch env (mkCredentials (Some ident) (Some code))) s in
  let after := users (store res.1) in
  (after = users s
   ∨ (list_find (userHasKey (keyOf ch ident)) (users s) = None
      ∧ after = users s ++ [newUser ch ident (now env)]
      ∧ ∃ u, res.2 = Ok (Some u) ∧ au_id u = length (users s)
             ∧ au_role u = CUSTOMER ∧ au_tenantId u = None))
  ∧ (∀ u, res.2 = Ok (Some u) →
          ∃ row, after !! au_id u = Some row
                 ∧ userHasKey (keyOf ch ident) row
                 ∧ u = toAuthUser (mkFoundUser (au_id u) row None))
  ∧ (uniqueUsers s → uniqueUsers (store res.1)).
Proof.
  intros res after. subst after.
  assert (users (store res.1) = users s
          ∨ (list_find (userHasKey (keyOf ch ident)) (users s) = None
             ∧ users (store res.1) = users s ++ [newUser ch ident (now env)]
             ∧ ∃ u, res.2 = Ok (Some u) ∧ au_id u = length (users s)
                    ∧ au_role u = CUSTOMER ∧ au_tenantId u = None)) as Husers.
  { destruct (authorize_cases ch env ident code s) as [[_ Hs] | (id & r & _ & Hcases)];
      fold res in Hs || fold res in Hcases.
    { left. by rewrite Hs. }
    destruct Hcases as [[_ ->] | [(ir & _ & _ & ->) | (Hu & -> & ->)]]; [by left..|].
    right. split_and!; [done..|]. eexists. split; [done|]. by destruct ch. }
  split_and!; [done| |].
  - intros u Hu. destruct res as [w r] eqn:Hres. simpl in Hu. subst r.
    exact (authorize_success_row ch env ident code s w u Hres).
  - intros Huniq. destruct Husers as [Heq | (Hnone & Heq & _)].
    { intros k i j ui uj. rewrite Heq. apply Huniq. }
    intros k i j ui uj Hi Hj Hki Hkj. rewrite Heq in Hi, Hj.
    apply list_find_None in Hnone. rewrite Forall_forall in Hnone.
    assert (∀ n un, (users s ++ [newUser ch ident (now env)]) !! n = Some un →
                    userHasKey k un →
                    (n < length (users s))%nat ∨ k = keyOf ch ident ∧ n = length (users s))
      as Hwhere.
    { intros n un Hn Hk. apply lookup_snoc_Some in Hn as [[Hlt _] | [-> <-]]; [by left|].
      right. split; [|done]. destruct ch, k; simpl in Hk |- *; congruence. }
    destruct (Hwhere i ui Hi Hki) as [Hli | [-> ->]],
             (Hwhere j uj Hj Hkj) as [Hlj | [Hk' ->]]; [| | |done].
    + rewrite lookup_app_l in Hi, Hj by done. by eapply Huniq.
    + subst k. rewrite lookup_app_l in Hi by done.
      exfalso. eapply Hnone; [by eapply list_elem_of_lookup_2 | done].
    + rewrite lookup_app_l in Hj by done.
      exfalso. eapply Hnone; [by eapply list_elem_of_lookup_2 | done].
Qed.

Lemma uniqueUsers_store0 : uniqueUsers Sample.store0.
Proof.
  intros k [|[|i]] [|[|j]] ui uj Hi Hj Hki Hkj; simpl in *; simplify_eq; try done;
    destruct k; simpl in *; congruence.
Defined.

Lemma authorize_finds_or_creates_one_user_witness :
  let s := set_otpVerifications Sample.store0
             [OTPVerification.mk (Some "carol@example.com") None "271828" EMAIL 600000 false] in
  let res := run (authorize EmailOtp (Sample.envAt 1000)
                    (mkCredentials (Some "carol@example.com") (Some "271828"))) s in
  users (store res.1)
  = [Sample.alice; Sample.bob;
     User.mk (Some "carol@example.com") (Some 1000) None None None None CUSTOMER None]
  ∧ uniqueUsers (store res.1).
Proof.
  intros s res. split; [reflexivity|].
  apply (proj2 (proj2 (authorize_finds_or_creates_one_user EmailOtp (Sample.envAt 1000) s
                         "carol@example.com" "271828"))).
  exact uniqueUsers_store0.
Defined.

(** ** Dispatch, then verification *)

Lemma sixDigits_nonempty code : sixDigits code → code ≠ "".
Proof. intros [Hlen _] ->. done. Qed.

Lemma generateCode_nonempty env :
  isBinary64 (random env) → random env < fixedOne → generateCode env ≠ "".
Proof.
  intros H0 H1. apply sixDigits_nonempty, toString_sixDigits.
  by apply otpNumber_range.
Qed.

Lemma authorize_refused_without_live_code ch env s ident code :
  (∀ r, r ∈ otpVerifications s → candidate ch ident code r →
        OTPVerification.expiresAt r ≤ now env) →
  (run (authorize ch env (mkCredentials (Some ident) (Some code))) s).2 = Ok None.
Proof.
  intros Hexp.
  destruct (authorize_cases ch env ident code s) as [[Hr _] | (id & r & Hfind & _)];
    [done|].
  apply list_find_Some in Hfind as (Hlook & [Hcand Hlive]%otpWhere_candidate & _).
  specialize (Hexp r (list_elem_of_lookup_2 _ _ _ Hlook) Hcand). lia.
Qed.

Lemma authorize_ok_user ch env s ident code :
  (∀ op, fails env op = false) →
  ident ≠ "" → code ≠ "" →
  (∃ r, r ∈ otpVerifications s ∧ candidate ch ident code r
        ∧ now env < OTPVerification.expiresAt r) →
  ∃ u row, (run (authorize ch env (mkCredentials (Some ident) (Some code))) s).2
           = Ok (Some u)
           ∧ userHasKey (keyOf ch ident) row
           ∧ u = toAuthUser (mkFoundUser (au_id u) row None).
Proof.
  intros Hno Hi Hc (r & Hin & Hcand & Hlive).
  destruct (authorize_ok ch env s ident code Hno) as [u Hu].
  - apply truthy_Some. eauto.
  - apply truthy_Some. eauto.
  - eapply list_find_elem_of; [done|]. by apply otpWhere_candidate.
  - destruct (run _ s) as [w o] eqn:Hrun. simpl in Hu. subst o.
    destruct (authorize_success_row ch env ident code s w u Hrun) as (row & _ & Hk & Hrow).
    eauto.
Qed.

(** X10. A code sent by [sendEmailOTP] verifies for ten minutes.  When the
    create succeeds, [sendEmailOTP] returns [true]; an [authorize] call of
    the email provider with that email and that code, all of its calls
    succeeding, returns a user with that email if it comes less than 600000
    ms after the send.  If no other unverified record carries the email and
    the code, the call returns [null] from 600000 ms on. *)
Theorem sent_email_code_verifies_for_ten_minutes env env' s email :
  isBinary64 (random env) →
  random env < fixedOne →
  email ≠ "" →
  fails env OTPCreate = false →
  (∀ op, fails env' op = false) →
  let sent := run (sendEmailOTP env email) s in
  let res := run (authorize EmailOtp env'
                    (mkCredentials (Some email) (Some (generateCode env))))
                 (store sent.1) in
  sent.2 = Ok true
  ∧ (now env' < now env + 600000 →
     ∃ u, res.2 = Ok (Some u) ∧ au_email u = Some email)
  ∧ ((∀ r, r ∈ otpVerifications s → ¬ candidate EmailOtp email (generateCode env) r) →
     now env + 600000 ≤ now env' → res.2 = Ok None).
Proof.
  intros H0 H1 Hemail Hcreate Hno sent res.
  assert (sent = (mkWorld (set_otpVerifications s
                             (otpVerifications s
                              ++ [OTPVerification.mk (Some email) None (generateCode env)
                                    EMAIL (now env + 600000) false]))
                          [OTPCreate], Ok true)) as Hsent.
  { subst sent. unfold sendEmailOTP, otp_create. exec. by rewrite Hcreate. }
  subst res. rewrite Hsent. simpl. split_and!; [done| |].
  - intros Hlive.
    destruct (authorize_ok_user EmailOtp env'
                (set_otpVerifications s
                   (otpVerifications s
                    ++ [OTPVerification.mk (Some email) None (generateCode env)
                          EMAIL (now env + 600000) false]))
                email (generateCode env) Hno Hemail (generateCode_nonempty env H0 H1))
      as (u & row & Hu & Hk & Hrow).
    { eexists. split_and!; [apply elem_of_app; right; apply list_elem_of_here|done|done]. }
    exists u. split; [done|]. rewrite Hrow. exact Hk.
  - intros Hnone Hlate. apply authorize_refused_without_live_code.
    intros r [Hin | ->%list_elem_of_singleton]%elem_of_app Hcand; [|simpl; lia].
    by destruct (Hnone r Hin).
Qed.

Lemma sent_email_code_verifies_for_ten_minutes_witness :
  let sent := run (sendEmailOTP (Sample.envAt 0) "alice@example.com") Sample.store0 in
  let creds := mkCredentials (Some "alice@example.com") (Some "550000") in
  (∃ u, (run (authorize EmailOtp (Sample.envAt 599999) creds) (store sent.1)).2
        = Ok (Some u) ∧ au_email u = Some "alice@example.com")
  ∧ (run (authorize EmailOtp (Sample.envAt 600000) creds) (store sent.1)).2 = Ok None.
Proof.
  split.
  - apply (sent_email_code_verifies_for_ten_minutes (Sample.envAt 0) (Sample.envAt 599999)
             Sample.store0 "alice@example.com");
      [split; [vm_compute; discriminate | vm_compute; reflexivity]
      | vm_compute; reflexivity | discriminate | reflexivity | reflexivity | simpl; lia].
  - apply (sent_email_code_verifies_for_ten_minutes (Sample.envAt 0) (Sample.envAt 600000)
             Sample.store0 "alice@example.com");
      [split; [vm_compute; discriminate | vm_compute; reflexivity]
      | vm_compute; reflexivity | discriminate | reflexivity | reflexivity
      | intros r Hr; by apply elem_of_nil in Hr | simpl; lia].
Defined.

(** X11. [sendSMSOTP] returns [true] exactly when both the create and the
    Twilio send succeed, and keeps the record it created when the send
    fails: after a create that succeeded, an [authorize] call of the phone
    provider with that phone and that code, all of its calls succeeding and
    less than 600000 ms later, returns a user with that phone, whether or not
    the message was sent. *)
Theorem sms_code_survives_a_failed_send env env' s phone :
  isBinary64 (random env) →
  random env < fixedOne →
  phone ≠ "" →
  (∀ op, fails env' op = false) →
  let sent := run (sendSMSOTP env phone) s in
  let res := run (authorize PhoneOtp env'
                    (mkCredentials (Some phone) (Some (generateCode env))))
                 (store sent.1) in
  sent.2 = Ok (negb (fails env OTPCreate) && negb (fails env TwilioMessagesCreate))
  ∧ (fails env OTPCreate = true → store sent.1 = s)
  ∧ (fails env OTPCreate = false →
     now env' < now env + 600000 →
     ∃ u, res.2 = Ok (Some u) ∧ au_phone u = Some phone).
Proof.
  intros H0 H1 Hphone Hno sent res.
  assert (store sent.1
          = (if fails env OTPCreate then s
             else set_otpVerifications s
                    (otpVerifications s
                     ++ [OTPVerification.mk None (Some phone) (generateCode env)
                           SMS (now env + 600000) false]))
          ∧ sent.2 = Ok (negb (fails env OTPCreate)
                         && negb (fails env TwilioMessagesCreate))) as [Hstore Hres].
  { subst sent. unfold sendSMSOTP, otp_create, twilio_messages_create. exec.
    destruct (fails env OTPCreate); simpl; [done|].
    by destruct (fails env TwilioMessagesCreate). }
  split_and!; [done| |].
  - intros Hf. by rewrite Hstore, Hf.
  - intros Hf Hlive. subst res. rewrite Hstore, Hf.
    destruct (authorize_ok_user PhoneOtp env'
                (set_otpVerifications s
                   (otpVerifications s
                    ++ [OTPVerification.mk None (Some phone) (generateCode env)
                          SMS (now env + 600000) false]))
                phone (generateCode env) Hno Hphone (generateCode_nonempty env H0 H1))
      as (u & row & Hu & Hk & Hrow).
    { eexists. split_and!; [apply elem_of_app; right; apply list_elem_of_here|done|done]. }
    exists u. split; [done|]. rewrite Hrow. exact Hk.
Qed.

Lemma sms_code_survives_a_failed_send_witness :
  let env := mkEnv 0 (Sample.onlyFails TwilioMessagesCreate) (2 ^ 1073) "a3f1" in
  let sent := run (sendSMSOTP env "+15551234567") Sample.store0 in
  sent.2 = Ok false
  ∧ ∃ u, (run (authorize PhoneOtp (Sample.envAt 60000)
                 (mkCredentials (Some "+15551234567") (Some "550000"))) (store sent.1)).2
         = Ok (Some u) ∧ au_phone u = Some "+15551234567".
Proof.
  intros env sent.
  destruct (sms_code_survives_a_failed_send env (Sample.envAt 60000) Sample.store0
              "+15551234567"
              ltac:(split; [vm_compute; discriminate | vm_compute; reflexivity])
              ltac:(vm_compute; reflexivity) ltac:(discriminate) (fun _ => eq_refl))
    as (Hres & _ & Hok).
  split; [exact Hres|].
  apply Hok; [reflexivity | simpl; lia].
Defined.

(** ** More on the [signIn] callback and the [signOut] event *)

(** X12. Whatever fails, the [signIn] callback never throws, never changes
    or removes a row, and writes at most one: either one active device
    session carrying the fingerprint of the attempt, and then it returns
    [true], or one pending session, and then it returns the redirect.  The
    user, OTP and audit tables are left as they were. *)
Theorem signIn_writes_at_most_one_row env s email provider :
  let res := run (signIn env email provider) s in
  let after := store res.1 in
  (∃ r, res.2 = Ok r)
  ∧ users after = users s
  ∧ otpVerifications after = otpVerifications s
  ∧ auditLogs after = auditLogs s
  ∧ (after = s
     ∨ (∃ uid, after = set_deviceSessions s
                         (deviceSessions s
                          ++ [DeviceSession.mk uid (entropy env) WEB "Unknown" "0.0.0.0"
                                true (now env)])
               ∧ res.2 = Ok Allow)
     ∨ (∃ uid, after = set_pendingDeviceSessions s
                         (pendingDeviceSessions s
                          ++ [PendingDeviceSession.mk uid (entropy env) WEB "Unknown"
                                "0.0.0.0"])
               ∧ res.2 = Ok (RedirectTo "/auth/device-limit-exceeded"))).
Proof.
  intros res after. subst after res. unfold run.
  destruct (decide (provider = Some "google")) as [->|Hp].
  2: { rewrite signIn_not_google by done. simpl. split_and!; eauto. }
  rewrite signIn_google. simpl.
  destruct (fails env RandomBytes); [simpl; split_and!; eauto|].
  destruct (fails env UserFindUnique); [simpl; split_and!; eauto|].
  destruct email as [e|]; [|simpl; split_and!; eauto].
  destruct (list_find _ _) as [ir|]; [|simpl; split_and!; eauto].
  pose proof (checkDeviceLimits_cases env (withTenant s ir) (entropy env)
                (mkWorld s [RandomBytes; UserFindUnique])) as Hcases.
  unfold caught. simpl in *.
  destruct Hcases as [(Hr & -> & _) | [(_ & Hr & -> & _) | (_ & Hr & -> & _)]];
    rewrite Hr; simpl; split_and!; eauto 6.
Qed.

(** X13. The callback does not recognise a repeated attempt: when every
    call succeeds and a known Google user has room for two more sessions,
    running the callback twice with the same fingerprint admits both times
    and leaves two identical active sessions, two more in the count. *)
Theorem signIn_repeated_attempt_takes_two_slots env s email uid row :
  (∀ op, fails env op = false) →
  list_find (userHasKey (ByEmail email)) (users s) = Some (uid, row) →
  Z.of_nat (countActive uid (deviceSessions s)) + 2
    ≤ maxDevicesOf (withTenant s (uid, row)) →
  let first := run (signIn env (Some email) (Some "google")) s in
  let second := run (signIn env (Some email) (Some "google")) (store first.1) in
  let d := DeviceSession.mk uid (entropy env) WEB "Unknown" "0.0.0.0" true (now env) in
  first.2 = Ok Allow
  ∧ second.2 = Ok Allow
  ∧ deviceSessions (store second.1) = deviceSessions s ++ [d; d]
  ∧ countActive uid (deviceSessions (store second.1))
    = (countActive uid (deviceSessions s) + 2)%nat.
Proof.
  intros Hno Hfind Hroom first second d.
  destruct (signIn_google_known env s email uid row Hno Hfind) as [_ H1].
  fold first in H1. rewrite decide_True in H1 by lia. destruct H1 as [Hr1 Hs1].
  destruct (signIn_google_known env (store first.1) email uid row Hno) as [_ H2].
  { by rewrite Hs1. }
  fold second in H2.
  rewrite (withTenant_ext s (store first.1)) in H2 by (by rewrite Hs1).
  assert (countActive uid (deviceSessions (store first.1))
          = S (countActive uid (deviceSessions s))) as Hcount.
  { rewrite Hs1. unfold admitted; simpl.
    rewrite countActive_app, countActive_new_active, decide_True by done. lia. }
  rewrite Hcount, decide_True in H2 by lia. destruct H2 as [Hr2 Hs2].
  split_and!; [done..| |].
  - rewrite Hs2, Hs1. unfold admitted; simpl. by rewrite <- app_assoc.
  - rewrite Hs2. unfold admitted; simpl.
    rewrite countActive_app, countActive_new_active, decide_True, Hcount by done. lia.
Qed.

Lemma signIn_repeated_attempt_takes_two_slots_witness :
  let s := set_deviceSessions Sample.store0 [] in
  let first := run (signIn Sample.env0 (Some "alice@example.com") (Some "google")) s in
  let second := run (signIn Sample.env0 (Some "alice@example.com") (Some "google"))
                    (store first.1) in
  second.2 = Ok Allow
  ∧ countActive 0%nat (deviceSessions (store second.1)) = 2%nat.
Proof.
  destruct (signIn_repeated_attempt_takes_two_slots Sample.env0
              (set_deviceSessions Sample.store0 []) "alice@example.com" 0%nat Sample.alice
              (fun _ => eq_refl) eq_refl ltac:(vm_compute; discriminate))
    as (_ & Hr & _ & Hc).
  exact (conj Hr Hc).
Defined.

(** X14. A sign-out frees every slot of the user: when every call succeeds
    and the limit of a known Google user is at least 1, the sign-in that
    follows the user's [signOut] event is admitted, however many sessions were
    active before, and leaves the user with one active session. *)
Theorem signIn_after_signOut_is_admitted env env' s email uid row tenantId :
  (∀ op, fails env op = false) →
  (∀ op, fails env' op = false) →
  list_find (userHasKey (ByEmail email)) (users s) = Some (uid, row) →
  1 ≤ maxDevicesOf (withTenant s (uid, row)) →
  let out := run (signOut_event env (Some uid) tenantId) s in
  let back := run (signIn env' (Some email) (Some "google")) (store out.1) in
  out.2 = Ok tt
  ∧ back.2 = Ok Allow
  ∧ countActive uid (deviceSessions (store back.1)) = 1%nat.
Proof.
  intros Hno Hno' Hfind Hmax out back.
  assert (out = (mkWorld (set_auditLogs
                            (set_deviceSessions s (deactivate uid (now env) <$> deviceSessions s))
                            (auditLogs s ++ [AuditLog.mk uid tenantId USER_SIGNOUT None None
                                               (now env)]))
                         [DeviceSessionUpdateMany; AuditLogCreate], Ok tt)) as Hout.
  { subst out. unfold signOut_event, deviceSession_updateMany, auditLog_create. exec.
    by rewrite !Hno. }
  subst back. rewrite Hout. simpl.
  set (s1 := set_auditLogs _ _).
  destruct (signIn_google_known env' s1 email uid row Hno' Hfind) as [_ H].
  rewrite (withTenant_ext s s1) in H by done.
  assert (countActive uid (deviceSessions s1) = 0%nat) as Hzero.
  { subst s1. simpl. by rewrite countActive_deactivate, decide_True. }
  case_decide as Hlt; [|lia]. destruct H as [Hr Hs].
  split_and!; [done..|].
  rewrite Hs. unfold admitted, set_deviceSessions. cbn [deviceSessions fu_id withTenant fst].
  by rewrite countActive_app, countActive_new_active, decide_True, Hzero.
Qed.

Lemma signIn_after_signOut_is_admitted_witness :
  let out := run (signOut_event Sample.env0 (Some 1%nat) None) Sample.store0 in
  let back := run (signIn Sample.env0 (Some "bob@example.com") (Some "google"))
                  (store out.1) in
  (run (signIn Sample.env0 (Some "bob@example.com") (Some "google")) Sample.store0).2
  = Ok (RedirectTo "/auth/device-limit-exceeded")
  ∧ back.2 = Ok Allow.
Proof.
  split; [reflexivity|].
  exact (proj1 (proj2 (signIn_after_signOut_is_admitted Sample.env0 Sample.env0 Sample.store0
                         "bob@example.com" 1%nat Sample.bob None
                         (fun _ => eq_refl) (fun _ => eq_refl) eq_refl
                         ltac:(vm_compute; discriminate)))).
Defined.

(** X15. Only 0 is replaced by the default: a plan whose [maxDevices] is
    negative is taken as it is, and a known Google user on such a plan is
    deferred at every sign-in whose calls succeed, even with no active
    session. *)
Theorem negative_limit_never_admits env s email uid row t p :
  (∀ op, fails env op = false) →
  list_find (userHasKey (ByEmail email)) (users s) = Some (uid, row) →
  fu_tenant (withTenant s (uid, row)) = Some (t, Some p) →
  Plan.maxDevices p < 0 →
  let res := run (signIn env (Some email) (Some "google")) s in
  maxDevicesOf (withTenant s (uid, row)) = Plan.maxDevices p
  ∧ res.2 = Ok (RedirectTo "/auth/device-limit-exceeded")
  ∧ deviceSessions (store res.1) = deviceSessions s.
Proof.
  intros Hno Hfind Ht Hneg res.
  pose proof (maxDevicesOf_plan _ t p Ht ltac:(lia)) as Hmax.
  destruct (signIn_google_known env s email uid row Hno Hfind) as [_ H].
  fold res in H. rewrite Hmax, decide_False in H by lia.
  destruct H as [Hr Hs]. split_and!; [done..|]. by rewrite Hs.
Qed.

Lemma negative_limit_never_admits_witness :
  let s := mkStore [Sample.alice] [Tenant.mk (Some 0%nat)] [Plan.mk (-1)] [] [] [] [] in
  (run (signIn Sample.env0 (Some "alice@example.com") (Some "google")) s).2
  = Ok (RedirectTo "/auth/device-limit-exceeded").
Proof.
  intros s.
  exact (proj1 (proj2 (negative_limit_never_admits Sample.env0 s "alice@example.com"
                         0%nat Sample.alice (Tenant.mk (Some 0%nat)) (Plan.mk (-1))
                         (fun _ => eq_refl) eq_refl eq_refl ltac:(simpl; lia)))).
Defined.

(** X16. Signing out twice changes nothing more in the sessions: when the
    calls succeed, the second [signOut] event of a user leaves every device
    session as the first left it, [lastSeen] included, and appends a second
    audit entry. *)
Theorem signOut_twice_changes_no_session env env' s uid tenantId :
  (∀ op, fails env op = false) →
  (∀ op, fails env' op = false) →
  let first := run (signOut_event env (Some uid) tenantId) s in
  let second := run (signOut_event env' (Some uid) tenantId) (store first.1) in
  deviceSessions (store second.1) = deviceSessions (store first.1)
  ∧ auditLogs (store second.1)
    = auditLogs s ++ [AuditLog.mk uid tenantId USER_SIGNOUT None None (now env);
                      AuditLog.mk uid tenantId USER_SIGNOUT None None (now env')].
Proof.
  intros Hno Hno' first second. subst second first.
  unfold signOut_event, deviceSession_updateMany, auditLog_create. exec.
  rewrite !Hno. simpl. rewrite !Hno'. simpl. split; [|by rewrite <- app_assoc].
  rewrite <- list_fmap_compose. apply list_fmap_ext. intros i d _. simpl.
  destruct (decide (isActiveOf uid d)) as [Ha|Hn].
  - rewrite (deactivate_active uid (now env) d Ha).
    apply deactivate_other. unfold isActiveOf; simpl. by intros [_ ?].
  - rewrite (deactivate_other uid (now env) d Hn). by apply deactivate_other.
Qed.

Lemma signOut_twice_changes_no_session_witness :
  let first := run (signOut_event (Sample.envAt 5000) (Some 0%nat) None) Sample.store0 in
  let second := run (signOut_event (Sample.envAt 9000) (Some 0%nat) None) (store first.1) in
  DeviceSession.lastSeen <$> deviceSessions (store second.1) = [5000; 0; 5000; 0].
Proof.
  intros first second.
  exact (eq_trans
           (f_equal (fmap DeviceSession.lastSeen)
              (proj1 (signOut_twice_changes_no_session (Sample.envAt 5000)
                        (Sample.envAt 9000) Sample.store0 0%nat None
                        (fun _ => eq_refl) (fun _ => eq_refl))))
           eq_refl).
Defined.

(** ** Sums of whole numbers in the page *)

Lemma round64_small X : 0 ≤ X ≤ 2 ^ 53 → round64 X = X.
Proof.
  intros [H0 H53]. destruct (decide (X = 2 ^ 53)) as [->|Hne]; [by vm_compute|].
  assert (dropBits X = 0) as Hdrop.
  { unfold dropBits. destruct (decide (X = 0)) as [->|Hpos]; [done|].
    assert (Z.log2 X < 53) by (apply Z.log2_lt_pow2; lia). lia. }
  unfold round64, roundHalfEven. rewrite Hdrop.
  change (2 ^ 0) with 1. rewrite Z.div_1_r, Z.mod_1_r. simpl. lia.
Qed.

Lemma round64_large X : 2 ^ 53 ≤ X → 2 ^ 53 ≤ round64 X.
Proof.
  intros HX. rewrite <- (round64_small (2 ^ 53)) at 1 by lia.
  apply round64_mono; lia.
Qed.

Lemma infinity_large : 2 ^ 53 < Menu.infinity.
Proof. by vm_compute. Qed.

(** Below 2^53 in magnitude the addition of the page is the exact one. *)
Lemma jsAdd_exact x y :
  Z.abs x < Menu.infinity → Z.abs y < Menu.infinity → Z.abs (x + y) ≤ 2 ^ 53 →
  Menu.jsAdd x y = x + y.
Proof.
  intros Hx Hy Hsum. pose proof infinity_large as Hinf. unfold Menu.jsAdd.
  rewrite (proj2 (Z.leb_gt _ _) Hx), (proj2 (Z.leb_gt _ _) Hy).
  rewrite round64_small by lia.
  rewrite (proj2 (Z.leb_gt Menu.infinity (Z.abs (x + y)))) by lia.
  lia.
Qed.

(** Above it the sum is rounded, and is never below 2^53. *)
Lemma jsAdd_lower x y :
  0 ≤ x → -1 ≤ y → 0 ≤ x + y → Z.min (x + y) (2 ^ 53) ≤ Menu.jsAdd x y.
Proof.
  intros Hx Hy Hsum. pose proof infinity_large as Hinf. unfold Menu.jsAdd.
  destruct (Z.leb_spec Menu.infinity (Z.abs x)); [lia|].
  destruct (Z.leb_spec Menu.infinity (Z.abs y)); [lia|].
  destruct (decide (x + y ≤ 2 ^ 53)) as [Hsmall|Hbig].
  - rewrite round64_small by lia.
    rewrite (proj2 (Z.leb_gt Menu.infinity (Z.abs (x + y)))) by lia. lia.
  - pose proof (round64_large (Z.abs (x + y)) ltac:(lia)) as Hround.
    destruct (Z.leb_spec Menu.infinity (round64 (Z.abs (x + y)))); nia.
Qed.

(** At 2^53 adding 1 changes nothing. *)
Lemma jsAdd_stuck : Menu.jsAdd (2 ^ 53) 1 = 2 ^ 53.
Proof. by vm_compute. Qed.

(** ** The cart of the customer menu page *)

Section Cart.
Context {Price : Type}.
Implicit Types (cart : list (Menu.CartItem Price)) (item : Menu.CartItem Price).

(** Dropping index [index] with [filter] is [delete]. *)
Lemma removeAt_shift {A} (f : nat → nat) (index : nat) (l : list A) :
  (∀ i j, f i = f j → i = j) →
  snd <$> filter (fun p => p.1 ≠ f index) (imap (fun i x => (f i, x)) l)
  = delete index l.
Proof.
  revert f index. induction l as [|x l IH]; intros f index Hinj; [done|].
  rewrite imap_cons, filter_cons. simpl. destruct index as [|index].
  - rewrite decide_False by (by intros ?). simpl.
    clear IH. assert (∀ g : nat → nat, (∀ i, g i ≠ f 0%nat) →
      snd <$> filter (fun p => p.1 ≠ f 0%nat) (imap (fun i x => (g i, x)) l) = l) as Hall.
    { clear x. induction l as [|y l IH]; intros g Hg; [done|].
      rewrite imap_cons, filter_cons. simpl. rewrite decide_True by done.
      simpl. f_equal. apply (IH (g ∘ S)). intros i. apply Hg. }
    apply (Hall (f ∘ S)). intros i Hi. by apply Hinj in Hi.
  - rewrite decide_True by (intros Heq; by apply Hinj in Heq). simpl. f_equal.
    apply (IH (f ∘ S)). intros i j Hij. apply Hinj in Hij. lia.
Qed.

Lemma removeAt_delete {A} (index : nat) (l : list A) :
  Menu.removeAt index l = delete index l.
Proof. exact (removeAt_shift (fun i => i) index l (fun _ _ H => H)). Qed.

Lemma updateCartItemQuantity_set cart index q item :
  q ≠ 0 → cart !! index = Some item →
  Menu.updateCartItemQuantity index q cart = <[index := Menu.setQuantity q item]> cart.
Proof.
  intros Hq Hitem. unfold Menu.updateCartItemQuantity.
  rewrite (proj2 (Z.eqb_neq q 0) Hq).
  apply list_eq. intros j. rewrite list_lookup_imap.
  destruct (Nat.eqb_spec j index) as [->|Hne].
  - rewrite Hitem. simpl.
    by rewrite list_lookup_insert_eq by (by eapply lookup_lt_Some).
  - rewrite list_lookup_insert_ne by done. by destruct (cart !! j).
Qed.

(** X17. [updateCartItemQuantity] on a line of the cart: with the new
    quantity 0 it removes that line and keeps the others in order; with any
    other new quantity it sets the quantity of that line and changes nothing
    else.  For an index beyond the cart it returns the cart as it was. *)
Theorem updateCartItemQuantity_touches_one_line cart index q :
  (q = 0 → Menu.updateCartItemQuantity index q cart = delete index cart)
  ∧ (∀ item, q ≠ 0 → cart !! index = Some item →
       Menu.updateCartItemQuantity index q cart
       = <[index := Menu.mkCartItem (Menu.menuItemId item) q (Menu.modifiers item)
                      (Menu.specialInstructions item) (Menu.price item)]> cart)
  ∧ (length cart ≤ index → Menu.updateCartItemQuantity index q cart = cart)%nat.
Proof.
  split_and!.
  - intros ->. unfold Menu.updateCartItemQuantity. simpl. apply removeAt_delete.
  - intros item Hq Hitem. by apply updateCartItemQuantity_set.
  - intros Hge. unfold Menu.updateCartItemQuantity. destruct (q =? 0).
    + rewrite removeAt_delete. apply list_eq. intros j.
      destruct (decide (j < index)%nat) as [Hlt|Hnlt].
      * by rewrite list_lookup_delete_lt.
      * rewrite list_lookup_delete_ge by lia.
        by rewrite !lookup_ge_None_2 by lia.
    + apply list_eq. intros j. rewrite list_lookup_imap.
      destruct (Nat.eqb_spec j index) as [->|Hne]; [|by destruct (cart !! j)].
      by rewrite lookup_ge_None_2.
Qed.

Lemma quantitySum_cons item cart :
  quantitySum (item :: cart) = Menu.quantity item + quantitySum cart.
Proof. done. Qed.

Lemma quantitySum_app cart1 cart2 :
  quantitySum (cart1 ++ cart2) = quantitySum cart1 + quantitySum cart2.
Proof.
  unfold quantitySum. induction cart1 as [|x cart1 IH]; simpl; [done|].
  rewrite IH. lia.
Qed.

Lemma quantitySum_delete cart index item :
  cart !! index = Some item →
  quantitySum (delete index cart) = quantitySum cart - Menu.quantity item.
Proof.
  intros Hitem. rewrite delete_take_drop.
  rewrite <- (take_drop_middle cart index item Hitem) at 3.
  rewrite !quantitySum_app, quantitySum_cons. lia.
Qed.

Lemma quantitySum_insert cart index item item' :
  cart !! index = Some item →
  quantitySum (<[index := item']> cart)
  = quantitySum cart - Menu.quantity item + Menu.quantity item'.
Proof.
  intros Hitem. rewrite insert_take_drop by (by eapply lookup_lt_Some).
  rewrite <- (take_drop_middle cart index item Hitem) at 3.
  rewrite !quantitySum_app, !quantitySum_cons. lia.
Qed.

Lemma quantitySum_ge_length cart :
  Forall (fun item => 1 ≤ Menu.quantity item) cart →
  Z.of_nat (length cart) ≤ quantitySum cart.
Proof.
  intros Hall. unfold quantitySum.
  induction Hall as [|x l Hx Hl IH]; simpl; [done|]. simpl length. lia.
Qed.

Lemma cartItemCount_snoc cart item :
  Menu.cartItemCount (cart ++ [item])
  = Menu.jsAdd (Menu.cartItemCount cart) (Menu.quantity item).
Proof. unfold Menu.cartItemCount. by rewrite fold_left_app. Qed.

(** The count is at least the number of lines, up to the 2^53 at which a
    sum of ones stops growing. *)
Lemma cartItemCount_lower cart :
  Forall (fun item => 1 ≤ Menu.quantity item) cart →
  Z.min (Z.of_nat (length cart)) (2 ^ 53) ≤ Menu.cartItemCount cart.
Proof.
  induction cart as [|item cart IH] using rev_ind; intros Hall; [done|].
  apply Forall_app in Hall as [Hall Hitem].
  apply (proj1 (Forall_singleton _ _)) in Hitem. simpl in Hitem.
  specialize (IH Hall).
  rewrite cartItemCount_snoc, length_app. simpl length.
  pose proof (jsAdd_lower (Menu.cartItemCount cart) (Menu.quantity item)) as Hlow.
  lia.
Qed.

(** While the exact sum is at most 2^53, the count is the exact sum. *)
Lemma cartItemCount_exact cart :
  Forall (fun item => 1 ≤ Menu.quantity item) cart →
  quantitySum cart ≤ 2 ^ 53 →
  Menu.cartItemCount cart = quantitySum cart.
Proof.
  pose proof infinity_large as Hinf.
  induction cart as [|item cart IH] using rev_ind; intros Hall Hsum; [done|].
  apply Forall_app in Hall as [Hall Hitem].
  apply (proj1 (Forall_singleton _ _)) in Hitem. simpl in Hitem.
  pose proof (quantitySum_ge_length cart Hall) as Hlen.
  rewrite quantitySum_app, quantitySum_cons in Hsum |- *.
  change (quantitySum (@nil (Menu.CartItem Price))) with 0 in Hsum |- *.
  rewrite cartItemCount_snoc, IH by (done || lia).
  rewrite jsAdd_exact by lia. lia.
Qed.

(** And a count below 2^53 is the exact sum. *)
Lemma cartItemCount_small cart :
  Forall (fun item => 1 ≤ Menu.quantity item) cart →
  Menu.cartItemCount cart < 2 ^ 53 →
  Menu.cartItemCount cart = quantitySum cart.
Proof.
  pose proof infinity_large as Hinf.
  induction cart as [|item cart IH] using rev_ind; intros Hall Hcount; [done|].
  apply Forall_app in Hall as [Hall Hitem].
  apply (proj1 (Forall_singleton _ _)) in Hitem. simpl in Hitem.
  pose proof (cartItemCount_lower cart Hall) as Hlow.
  rewrite cartItemCount_snoc in Hcount |- *.
  pose proof (jsAdd_lower (Menu.cartItemCount cart) (Menu.quantity item)) as Hadd.
  rewrite quantitySum_app, quantitySum_cons.
  change (quantitySum (@nil (Menu.CartItem Price))) with 0.
  rewrite <- IH by (done || lia).
  rewrite jsAdd_exact by lia. lia.
Qed.

Lemma quantity_le_sum cart index item :
  Forall (fun item => 1 ≤ Menu.quantity item) cart →
  cart !! index = Some item →
  Menu.quantity item ≤ quantitySum cart.
Proof.
  intros Hall Hitem.
  pose proof (quantitySum_delete cart index item Hitem) as Hdel.
  pose proof (quantitySum_ge_length _ (Forall_delete _ _ index Hall)). lia.
Qed.

Lemma setQuantity_same item :
  Menu.setQuantity (Menu.quantity item) item = item.
Proof. by destruct item. Qed.

(** X18. While [cartItemCount], the number on the cart badge, is below 2^53
    and every line has a quantity of at least 1, the count is the exact sum
    of the quantities and each press of the plus or the minus button of a
    cart line changes it by exactly one.  The minus button on a line of
    quantity 1 removes the line.  The plus button on a line of quantity 2^53
    changes nothing: in binary64, 2^53 + 1 is 2^53. *)
Theorem cart_buttons_change_the_count_by_one cart index item :
  cart !! index = Some item →
  (Forall (fun item => 1 ≤ Menu.quantity item) cart →
   Menu.cartItemCount cart < 2 ^ 53 →
   Menu.cartItemCount cart = quantitySum cart
   ∧ Menu.cartItemCount (Menu.cartPlus index cart) = Menu.cartItemCount cart + 1
   ∧ Menu.cartItemCount (Menu.cartMinus index cart) = Menu.cartItemCount cart - 1)
  ∧ (Menu.quantity item = 1 → Menu.cartMinus index cart = delete index cart)
  ∧ (Menu.quantity item = 2 ^ 53 → Menu.cartPlus index cart = cart).
Proof.
  intros Hitem. pose proof infinity_large as Hinf.
  unfold Menu.cartPlus, Menu.cartMinus. rewrite Hitem. split_and!.
  - intros Hall Hcount.
    pose proof (cartItemCount_small cart Hall Hcount) as Hsum.
    pose proof (quantity_le_sum cart index item Hall Hitem) as Hle.
    pose proof (Forall_lookup_1 _ _ _ _ Hall Hitem) as Hq. simpl in Hq.
    split_and!; [done| |].
    + rewrite jsAdd_exact by lia.
      rewrite (updateCartItemQuantity_set cart index _ item) by (done || lia).
      rewrite cartItemCount_exact.
      * rewrite (quantitySum_insert cart index item _ Hitem). simpl. lia.
      * apply Forall_insert; [done|]. simpl. lia.
      * rewrite (quantitySum_insert cart index item _ Hitem). simpl. lia.
    + rewrite jsAdd_exact by lia.
      destruct (decide (Menu.quantity item = 1)) as [Hone|Hne].
      * rewrite Hone. unfold Menu.updateCartItemQuantity. simpl.
        rewrite removeAt_delete, cartItemCount_exact.
        -- rewrite (quantitySum_delete cart index item Hitem). lia.
        -- by apply Forall_delete.
        -- rewrite (quantitySum_delete cart index item Hitem). lia.
      * rewrite (updateCartItemQuantity_set cart index _ item) by (done || lia).
        rewrite cartItemCount_exact.
        -- rewrite (quantitySum_insert cart index item _ Hitem). simpl. lia.
        -- apply Forall_insert; [done|]. simpl. lia.
        -- rewrite (quantitySum_insert cart index item _ Hitem). simpl. lia.
  - intros ->. rewrite jsAdd_exact by lia.
    unfold Menu.updateCartItemQuantity. simpl. apply removeAt_delete.
  - intros Hq. rewrite Hq, jsAdd_stuck.
    rewrite (updateCartItemQuantity_set cart index _ item) by (done || lia).
    rewrite <- Hq, setQuantity_same. by apply list_insert_id.
Qed.

Lemma jsAdd_positive q y :
  1 ≤ q → -1 ≤ y → 1 ≤ q + y → 1 ≤ Menu.jsAdd q y.
Proof. intros Hq Hy Hsum. pose proof (jsAdd_lower q y). lia. Qed.

Lemma cartPlus_positive cart index :
  Forall (fun item => 1 ≤ Menu.quantity item) cart →
  Forall (fun item => 1 ≤ Menu.quantity item) (Menu.cartPlus index cart).
Proof.
  intros Hall.
  unfold Menu.cartPlus. destruct (cart !! index) as [item|] eqn:Hitem; [|done].
  pose proof (Forall_lookup_1 _ _ _ _ Hall Hitem) as Hq. simpl in Hq.
  pose proof (jsAdd_positive (Menu.quantity item) 1) as Hpos.
  rewrite (updateCartItemQuantity_set cart index _ item) by (done || lia).
  apply Forall_insert; [done|]. simpl. lia.
Qed.

Lemma cartMinus_positive cart index :
  Forall (fun item => 1 ≤ Menu.quantity item) cart →
  Forall (fun item => 1 ≤ Menu.quantity item) (Menu.cartMinus index cart).
Proof.
  intros Hall. pose proof infinity_large as Hinf.
  unfold Menu.cartMinus. destruct (cart !! index) as [item|] eqn:Hitem; [|done].
  pose proof (Forall_lookup_1 _ _ _ _ Hall Hitem) as Hq. simpl in Hq.
  destruct (decide (Menu.quantity item = 1)) as [->|Hne].
  - rewrite jsAdd_exact by lia.
    unfold Menu.updateCartItemQuantity. simpl. rewrite removeAt_delete.
    by apply Forall_delete.
  - pose proof (jsAdd_positive (Menu.quantity item) (-1)) as Hpos.
    rewrite (updateCartItemQuantity_set cart index _ item) by (done || lia).
    apply Forall_insert; [done|]. simpl. lia.
Qed.

Lemma cartItemCount_positive cart :
  Forall (fun item => 1 ≤ Menu.quantity item) cart →
  0 < Menu.cartItemCount cart ↔ cart ≠ [].
Proof.
  intros Hall. pose proof (cartItemCount_lower cart Hall) as Hcount. split.
  - intros Hpos ->. done.
  - intros Hne. destruct cart; [done|]. simpl length in Hcount. lia.
Qed.

(** X19. If every line of the cart has a quantity of at least 1, it still
    has after a press of a plus or a minus button, and then [cartItemCount]
    is at least the number of lines (an array has fewer than 2^32 elements;
    for a list of the model, up to the 2^53 at which a binary64 sum of ones
    stops growing): the badge, shown when the count is positive, is shown
    exactly when the cart has a line. *)
Theorem cart_lines_keep_a_positive_quantity cart index :
  Forall (fun item => 1 ≤ Menu.quantity item) cart →
  Forall (fun item => 1 ≤ Menu.quantity item) (Menu.cartPlus index cart)
  ∧ Forall (fun item => 1 ≤ Menu.quantity item) (Menu.cartMinus index cart)
  ∧ Z.min (Z.of_nat (length cart)) (2 ^ 53) ≤ Menu.cartItemCount cart
  ∧ (0 < Menu.cartItemCount cart ↔ cart ≠ []).
Proof.
  intros Hall. split_and!.
  - by apply cartPlus_positive.
  - by apply cartMinus_positive.
  - by apply cartItemCount_lower.
  - by apply cartItemCount_positive.
Qed.

(** X20. On a freshly loaded page, whatever the customer does with the item
    dialog, its quantity picker and the buttons of the cart, the picker
    never shows less than 1, no line of the cart has a quantity below 1, and
    the badge with [cartItemCount] is shown exactly when the cart has a
    line. *)
Theorem page_keeps_quantities_positive
    (priceOf : Menu.MenuItem → list (string * list string) → Price)
    (events : list Menu.Event) :
  1 ≤ Menu.p_itemQuantity (Menu.pageAfter priceOf events)
  ∧ Forall (fun item => 1 ≤ Menu.quantity item) (Menu.p_cart (Menu.pageAfter priceOf events))
  ∧ (0 < Menu.cartItemCount (Menu.p_cart (Menu.pageAfter priceOf events))
     ↔ Menu.p_cart (Menu.pageAfter priceOf events) ≠ []).
Proof.
  assert (1 ≤ Menu.p_itemQuantity (Menu.pageAfter priceOf events)
          ∧ Forall (fun item => 1 ≤ Menu.quantity item)
                   (Menu.p_cart (Menu.pageAfter priceOf events))) as [Hq Hall].
  { unfold Menu.pageAfter. induction events as [|e events IH] using rev_ind.
    - simpl. split; [lia|constructor].
    - rewrite fold_left_app. simpl.
      destruct IH as [Hq Hall]. set (p := fold_left _ events _) in *.
      pose proof (jsAdd_positive (Menu.p_itemQuantity p) 1) as Hplus.
      destruct e; simpl.
      all: try (split; [lia|done]).
      + unfold Menu.addToCart. destruct (Menu.p_selectedItem p); [|done]. simpl.
        split; [lia|]. apply Forall_app. split; [done|]. by repeat constructor.
      + split; [done|]. by apply cartMinus_positive.
      + split; [done|]. by apply cartPlus_positive. }
  split_and!; [done|done|]. by apply cartItemCount_positive.
Qed.

(** X21. [addToCart] with an item selected appends one line to the cart,
    for that item with the quantity of the picker, keeps the lines that were
    there, and closes the dialog with the picker back at 1; with no item
    selected it changes nothing.  [cartItemCount] rises by the quantity of
    the new line while the sum stays within 2^53, the range in which the
    additions of the count are exact. *)
Theorem addToCart_appends_one_line
    (priceOf : Menu.MenuItem → list (string * list string) → Price)
    (p : Menu.Page Price) :
  (∀ selected, Menu.p_selectedItem p = Some selected →
     ∃ line,
       Menu.p_cart (Menu.addToCart priceOf p) = Menu.p_cart p ++ [line]
       ∧ Menu.menuItemId line = Menu.id selected
       ∧ Menu.quantity line = Menu.p_itemQuantity p
       ∧ Menu.cartItemCount (Menu.p_cart (Menu.addToCart priceOf p))
         = Menu.jsAdd (Menu.cartItemCount (Menu.p_cart p)) (Menu.p_itemQuantity p)
       ∧ (Forall (fun item => 1 ≤ Menu.quantity item) (Menu.p_cart p) →
          1 ≤ Menu.p_itemQuantity p →
          Menu.cartItemCount (Menu.p_cart p) + Menu.p_itemQuantity p ≤ 2 ^ 53 →
          Menu.cartItemCount (Menu.p_cart (Menu.addToCart priceOf p))
          = Menu.cartItemCount (Menu.p_cart p) + Menu.p_itemQuantity p)
       ∧ Menu.p_selectedItem (Menu.addToCart priceOf p) = None
       ∧ Menu.p_itemQuantity (Menu.addToCart priceOf p) = 1)
  ∧ (Menu.p_selectedItem p = None → Menu.addToCart priceOf p = p).
Proof.
  unfold Menu.addToCart. pose proof infinity_large as Hinf. split.
  - intros selected ->. eexists. split_and!; try reflexivity.
    + simpl. by rewrite cartItemCount_snoc.
    + intros Hall Hq Hsum. simpl. rewrite cartItemCount_snoc. simpl.
      pose proof (cartItemCount_lower _ Hall) as Hlow.
      apply jsAdd_exact; lia.
  - by intros ->.
Qed.

End Cart.

Lemma cart_buttons_change_the_count_by_one_witness :
  let line := Menu.mkCartItem "margherita" 1 [] None tt in
  let cart := [line; Menu.mkCartItem "salad" 2 [] None tt] in
  let full := [Menu.mkCartItem "margherita" (2 ^ 53) [] None tt] in
  Menu.cartItemCount (Menu.cartPlus 0 cart) = Menu.cartItemCount cart + 1
  ∧ Menu.cartItemCount (Menu.cartMinus 0 cart) = Menu.cartItemCount cart - 1
  ∧ Menu.cartMinus 0 cart = [Menu.mkCartItem "salad" 2 [] None tt]
  ∧ Menu.cartPlus 0 full = full.
Proof.
  intros line cart full.
  destruct (cart_buttons_change_the_count_by_one cart 0%nat line eq_refl)
    as (Hcount & Hremove & _).
  destruct (cart_buttons_change_the_count_by_one full 0%nat
              (Menu.mkCartItem "margherita" (2 ^ 53) [] None tt) eq_refl)
    as (_ & _ & Hstuck).
  assert (Forall (fun item : Menu.CartItem unit => 1 ≤ Menu.quantity item) cart) as Hall.
  { repeat constructor; simpl; lia. }
  destruct (Hcount Hall ltac:(by vm_compute)) as (_ & Hplus & Hminus).
  exact (conj Hplus (conj Hminus (conj (Hremove eq_refl) (Hstuck eq_refl)))).
Defined.

Lemma updateCartItemQuantity_touches_one_line_witness :
  let cart := [Menu.mkCartItem "margherita" 1 [] None tt;
               Menu.mkCartItem "salad" 2 [] None tt] in
  Menu.updateCartItemQuantity 1 0 cart = [Menu.mkCartItem "margherita" 1 [] None tt]
  ∧ Menu.updateCartItemQuantity 1 5 cart
    = [Menu.mkCartItem "margherita" 1 [] None tt; Menu.mkCartItem "salad" 5 [] None tt]
  ∧ Menu.updateCartItemQuantity 7 5 cart = cart.
Proof.
  intros cart.
  destruct (updateCartItemQuantity_touches_one_line cart 1%nat 0) as (H0 & _ & _).
  destruct (updateCartItemQuantity_touches_one_line cart 1%nat 5) as (_ & H5 & _).
  destruct (updateCartItemQuantity_touches_one_line cart 7%nat 5) as (_ & _ & H7).
  exact (conj (H0 eq_refl)
           (conj (H5 (Menu.mkCartItem "salad" 2 [] None tt) ltac:(discriminate) eq_refl)
                 (H7 ltac:(simpl; lia)))).
Defined.

Lemma cart_lines_keep_a_positive_quantity_witness :
  let cart := [Menu.mkCartItem "margherita" 1 [] None tt;
               Menu.mkCartItem "salad" 2 [] None tt] in
  Forall (fun item => 1 ≤ Menu.quantity item) (Menu.cartMinus 0 cart)
  ∧ 0 < Menu.cartItemCount cart.
Proof.
  intros cart.
  assert (Forall (fun item : Menu.CartItem unit => 1 ≤ Menu.quantity item) cart) as Hall.
  { repeat constructor; simpl; lia. }
  destruct (cart_lines_keep_a_positive_quantity cart 0%nat Hall) as (_ & Hminus & _ & Hpos).
  exact (conj Hminus (proj2 Hpos ltac:(discriminate))).
Defined.

(** ** The filters of the customer menu page *)

Lemma filter_sublist_impl {A} (P Q : A → Prop)
    `{!∀ x, Decision (P x)} `{!∀ x, Decision (Q x)} (l : list A) :
  (∀ x, x ∈ l → P x → Q x) → filter P l `sublist_of` filter Q l.
Proof.
  induction l as [|x l IH]; intros Himp; [done|].
  assert (filter P l `sublist_of` filter Q l) as Hl.
  { apply IH. intros y Hy. apply Himp. by right. }
  rewrite !filter_cons. destruct (decide (P x)) as [HP|HP].
  - rewrite decide_True by (apply Himp; [left|done]). by constructor.
  - destruct (decide (Q x)); [by constructor|done].
Qed.

Lemma existsb_filters (item : Menu.MenuItem) (fs : list string) :
  existsb (fun f => bool_decide (f ∈ Menu.dietary item) || bool_decide (f ∈ Menu.tags item)) fs
  = true
  ↔ ∃ f, f ∈ fs ∧ (f ∈ Menu.dietary item ∨ f ∈ Menu.tags item).
Proof.
  rewrite existsb_exists. split; intros (f & Hf & Hin); exists f.
  - apply list_elem_of_In in Hf. split; [done|].
    apply orb_true_iff in Hin as [H|H]; apply bool_decide_eq_true in H; auto.
  - split; [by apply list_elem_of_In|]. apply orb_true_iff.
    destruct Hin; [left|right]; by apply bool_decide_eq_true.
Qed.

Lemma menuFilter_spec lc q c fs item :
  Menu.menuFilter lc q c fs item = true
  ↔ (q = "" ∨ includes (lc q) (lc (Menu.name item)) = true
            ∨ includes (lc q) (lc (Menu.description item)) = true)
    ∧ (c = "all" ∨ Menu.category item = c)
    ∧ (fs = [] ∨ ∃ f, f ∈ fs ∧ (f ∈ Menu.dietary item ∨ f ∈ Menu.tags item))
    ∧ Menu.available item = true.
Proof.
  unfold Menu.menuFilter.
  assert (negb (String.eqb q "")
          && negb (includes (lc q) (lc (Menu.name item)))
          && negb (includes (lc q) (lc (Menu.description item))) = false
          ↔ q = "" ∨ includes (lc q) (lc (Menu.name item)) = true
                   ∨ includes (lc q) (lc (Menu.description item)) = true) as Hq.
  { destruct (String.eqb_spec q ""), (includes (lc q) (lc (Menu.name item))),
      (includes (lc q) (lc (Menu.description item))); simpl; intuition congruence. }
  assert (negb (String.eqb c "all") && negb (String.eqb (Menu.category item) c) = false
          ↔ c = "all" ∨ Menu.category item = c) as Hc.
  { destruct (String.eqb_spec c "all"), (String.eqb_spec (Menu.category item) c);
      simpl; intuition congruence. }
  assert ((0 <? length fs)%nat
          && negb (existsb (fun f => bool_decide (f ∈ Menu.dietary item)
                                     || bool_decide (f ∈ Menu.tags item)) fs) = false
          ↔ fs = [] ∨ ∃ f, f ∈ fs ∧ (f ∈ Menu.dietary item ∨ f ∈ Menu.tags item)) as Hfs.
  { destruct fs as [|f fs]; [simpl; split; auto|].
    change ((0 <? length (f :: fs))%nat) with true.
    rewrite andb_true_l, negb_false_iff, existsb_filters. intuition discriminate. }
  destruct (negb (String.eqb q "") && _ && _);
    [split; [done|]; intros [H _]; by apply Hq in H|].
  destruct (negb (String.eqb c "all") && _);
    [split; [done|]; intros (_ & H & _); by apply Hc in H|].
  destruct ((0 <? length fs)%nat && _).
  - split; [done|]. intros (_ & _ & H & _). by apply Hfs in H.
  - split; [|tauto]. intros Hav. split_and!; [by apply Hq|by apply Hc|by apply Hfs|done].
Qed.

(** X22. [filteredMenu] shows items of the menu in the order of the menu,
    only available ones, only those of the chosen category unless it is
    "all", and, once a dietary filter is chosen, only items that carry one
    of the chosen filters.  Without query, with category "all" and no
    filter it shows exactly the available items; before the menu has loaded
    it shows nothing. *)
Theorem filteredMenu_shows_available_matches lc menu q c fs :
  Menu.filteredMenu lc menu q c fs `sublist_of` default [] menu
  ∧ Forall (fun item =>
              Menu.available item = true
              ∧ (c = "all" ∨ Menu.category item = c)
              ∧ (fs = [] ∨ ∃ f, f ∈ fs ∧ (f ∈ Menu.dietary item ∨ f ∈ Menu.tags item)))
           (Menu.filteredMenu lc menu q c fs)
  ∧ Menu.filteredMenu lc menu "" "all" []
    = filter (fun item => Menu.available item = true) (default [] menu)
  ∧ Menu.filteredMenu lc None q c fs = [].
Proof.
  split_and!.
  - destruct menu as [items|]; simpl; [apply sublist_filter|done].
  - apply Forall_forall. intros item Hitem. destruct menu as [items|]; simpl in Hitem.
    + apply list_elem_of_filter in Hitem as [Hitem _].
      apply menuFilter_spec in Hitem. firstorder (subst; eauto; congruence).
    + by apply elem_of_nil in Hitem.
  - destruct menu as [items|]; [|done]. simpl. apply list_filter_iff. intros item.
    rewrite menuFilter_spec. firstorder (subst; eauto; congruence).
  - done.
Qed.

(** X23. The dietary filters are alternatives: with a filter chosen, choosing
    more filters never hides an item that was shown, and choosing any filter
    never shows an item that was hidden with none chosen. *)
Theorem dietary_filters_are_alternatives lc menu q c fs fs' :
  fs ≠ [] → fs ⊆ fs' →
  Menu.filteredMenu lc menu q c fs `sublist_of` Menu.filteredMenu lc menu q c fs'
  ∧ Menu.filteredMenu lc menu q c fs' `sublist_of` Menu.filteredMenu lc menu q c [].
Proof.
  intros Hne Hsub. destruct menu as [items|]; [|done]. simpl.
  split; apply filter_sublist_impl; intros item _; rewrite !menuFilter_spec.
  - intros (Hq & Hc & [->|(f & Hf & Hin)] & Hav); [done|].
    split_and!; [done|done| |done]. right. exists f. split; [by apply Hsub|done].
  - firstorder (subst; eauto; congruence).
Qed.

Lemma dietary_filters_are_alternatives_witness :
  let salad := Menu.mkMenuItem "1" "Salad" "green" "starters" ["vegan"] [] true in
  let bread := Menu.mkMenuItem "2" "Bread" "rye" "starters" [] ["gluten-free"] true in
  Menu.filteredMenu (fun s => s) (Some [salad; bread]) "" "all" ["vegan"]
    `sublist_of`
  Menu.filteredMenu (fun s => s) (Some [salad; bread]) "" "all" ["vegan"; "gluten-free"].
Proof.
  intros salad bread.
  refine (proj1 (dietary_filters_are_alternatives (fun s => s) (Some [salad; bread])
                   "" "all" ["vegan"] ["vegan"; "gluten-free"] _ _)).
  - discriminate.
  - intros f Hf. apply list_elem_of_singleton in Hf as ->. left.
Defined.

Lemma toggleFilter_other selected prev f :
  f ≠ selected → f ∈ Menu.toggleFilter selected prev ↔ f ∈ prev.
Proof.
  intros Hne. unfold Menu.toggleFilter. case_bool_decide.
  - rewrite list_elem_of_filter. firstorder (subst; eauto; congruence).
  - rewrite elem_of_app, list_elem_of_singleton. firstorder (subst; eauto; congruence).
Qed.

Lemma toggleFilter_selected selected prev :
  selected ∈ Menu.toggleFilter selected prev ↔ selected ∉ prev.
Proof.
  unfold Menu.toggleFilter. case_bool_decide.
  - rewrite list_elem_of_filter. firstorder (subst; eauto; congruence).
  - rewrite elem_of_app, list_elem_of_singleton. firstorder (subst; eauto; congruence).
Qed.

Lemma filter_ne_absent (selected : string) (l : list string) :
  selected ∉ l → filter (fun f => f ≠ selected) l = l.
Proof.
  induction l as [|x l IH]; intros Hnot; [done|].
  rewrite filter_cons, decide_True.
  - f_equal. apply IH. intros Hin. apply Hnot. by right.
  - intros ->. apply Hnot. left.
Qed.

(** X24. A press on a dietary filter button switches that filter, on if it
    was off and off if it was on, and leaves every other filter as it was.
    The list of chosen filters stays free of duplicates, and two presses on
    a filter that was off give back the list as it was. *)
Theorem toggleFilter_switches_one_filter selected prev :
  (selected ∈ Menu.toggleFilter selected prev ↔ selected ∉ prev)
  ∧ (∀ f, f ≠ selected → f ∈ Menu.toggleFilter selected prev ↔ f ∈ prev)
  ∧ (NoDup prev → NoDup (Menu.toggleFilter selected prev))
  ∧ (selected ∉ prev → Menu.toggleFilter selected (Menu.toggleFilter selected prev) = prev).
Proof.
  split_and!.
  - apply toggleFilter_selected.
  - intros f. apply toggleFilter_other.
  - intros Hnd. unfold Menu.toggleFilter. case_bool_decide as Hin.
    + by apply NoDup_filter.
    + apply NoDup_app. split_and!; [done| |apply NoDup_singleton].
      intros f Hf Hs. apply list_elem_of_singleton in Hs as ->. done.
  - intros Hnot. unfold Menu.toggleFilter.
    rewrite (bool_decide_eq_false_2 _ Hnot).
    rewrite bool_decide_eq_true_2 by (apply elem_of_app; right; left).
    rewrite filter_app, filter_ne_absent by done.
    rewrite filter_cons, decide_False by (intros H; by apply H). simpl.
    apply app_nil_r.
Qed.

Lemma toggleFilter_switches_one_filter_witness :
  NoDup (Menu.toggleFilter "vegan" ["spicy"; "vegan"])
  ∧ Menu.toggleFilter "vegan" (Menu.toggleFilter "vegan" ["spicy"]) = ["spicy"].
Proof.
  destruct (toggleFilter_switches_one_filter "vegan" ["spicy"; "vegan"]) as (_ & _ & Hnd & _).
  destruct (toggleFilter_switches_one_filter "vegan" ["spicy"]) as (_ & _ & _ & Hback).
  split.
  - apply Hnd. apply NoDup_cons. split.
    + intros Hin. by apply list_elem_of_singleton in Hin.
    + apply NoDup_singleton.
  - apply Hback. intros Hin. by apply list_elem_of_singleton in Hin.
Defined.

Lemma setAddAll_spec (seen xs : list string) :
  NoDup seen →
  NoDup (Menu.setAddAll seen xs)
  ∧ (∀ c, c ∈ Menu.setAddAll seen xs ↔ c ∈ seen ∨ c ∈ xs)
  ∧ (length (Menu.setAddAll seen xs) ≤ length seen + length xs)%nat.
Proof.
  revert seen. induction xs as [|x xs IH]; intros seen Hnd; simpl.
  - split_and!; [done| |lia]. intros c. rewrite elem_of_nil. firstorder (subst; eauto; congruence).
  - destruct (decide (x ∈ seen)) as [Hin|Hnot].
    + destruct (IH seen Hnd) as (H1 & H2 & H3). split_and!; [done| |lia].
      intros c. rewrite H2, elem_of_cons. firstorder (subst; eauto; congruence).
    + assert (NoDup (seen ++ [x])) as Hnd'.
      { apply NoDup_app. split_and!; [done| |apply NoDup_singleton].
        intros f Hf Hs. apply list_elem_of_singleton in Hs as ->. done. }
      destruct (IH _ Hnd') as (H1 & H2 & H3). split_and!; [done| |].
      * intros c. rewrite H2, elem_of_app, list_elem_of_singleton, elem_of_cons.
        firstorder (subst; eauto; congruence).
      * rewrite length_app in H3. simpl in H3. lia.
Qed.

(** X25. [categories] of a loaded menu is "all" followed by the categories
    of the menu's items, each one once, so the list is free of duplicates
    exactly when no item has the category "all"; it has at most one entry
    more than the menu has items, and is empty before the menu has
    loaded. *)
Theorem categories_lists_each_category_once items :
  ∃ cats,
    Menu.categories (Some items) = "all" :: cats
    ∧ NoDup cats
    ∧ (∀ c, c ∈ cats ↔ ∃ item, item ∈ items ∧ Menu.category item = c)
    ∧ (NoDup (Menu.categories (Some items))
       ↔ ∀ item, item ∈ items → Menu.category item ≠ "all")
    ∧ (length (Menu.categories (Some items)) ≤ 1 + length items)%nat
    ∧ Menu.categories None = [].
Proof.
  destruct (setAddAll_spec [] (Menu.category <$> items) (NoDup_nil_2)) as (Hnd & Hin & Hlen).
  assert (∀ c, c ∈ Menu.setAddAll [] (Menu.category <$> items)
               ↔ ∃ item, item ∈ items ∧ Menu.category item = c) as Hcat.
  { intros c. rewrite Hin, list_elem_of_fmap, elem_of_nil. firstorder (subst; eauto; congruence). }
  exists (Menu.setAddAll [] (Menu.category <$> items)). split_and!; [done|done|done| | |done].
  - simpl. rewrite NoDup_cons, Hcat. firstorder (subst; eauto; congruence).
  - simpl. rewrite length_fmap in Hlen. simpl in Hlen. lia.
Qed.

Lemma addToCart_appends_one_line_witness :
  let salad := Menu.mkMenuItem "1" "Salad" "green" "starters" ["vegan"] [] true in
  let p := Menu.mkPage [Menu.mkCartItem "2" 1 [] None tt] (Some salad) 3 [] "" in
  Menu.cartItemCount (Menu.p_cart (Menu.addToCart (fun _ _ => tt) p))
  = Menu.cartItemCount (Menu.p_cart p) + 3.
Proof.
  intros salad p.
  destruct (proj1 (addToCart_appends_one_line (fun _ _ => tt) p) salad eq_refl)
    as (line & _ & _ & _ & _ & Hcount & _).
  apply Hcount.
  - repeat constructor; simpl; lia.
  - simpl; lia.
  - by vm_compute.
Defined.

Lemma categories_lists_each_category_once_witness :
  let salad := Menu.mkMenuItem "1" "Salad" "green" "starters" ["vegan"] [] true in
  let bread := Menu.mkMenuItem "2" "Bread" "rye" "starters" [] ["gluten-free"] true in
  let cake := Menu.mkMenuItem "3" "Cake" "lemon" "desserts" [] [] false in
  Menu.categories (Some [salad; bread; cake]) = ["all"; "starters"; "desserts"]
  ∧ NoDup (Menu.categories (Some [salad; bread; cake])).
Proof.
  intros salad bread cake. split; [reflexivity|].
  destruct (categories_lists_each_category_once [salad; bread; cake])
    as (cats & _ & _ & _ & Hnd & _).
  apply Hnd. intros item Hitem.
  repeat (apply elem_of_cons in Hitem as [->|Hitem]; [discriminate|]).
  by apply elem_of_nil in Hitem.
Defined.
